(** * TSNECaption3DScatter: t-SNE of caption activations rendered as a 3D scatter

    Shallow embedding of [src/tsne/tsne_caption_3d_scatter.py].

    The class calls into libraries whose code is not part of the
    repository.  They appear here as follows.
    - sklearn's [TSNE(...).fit_transform] is a parameter of the development
      ([tsne_fit_transform]): it receives the constructor arguments of
      [TSNE], the data and the state of the random generator, and returns
      either an exception or an (n, 3) array, together with the new
      generator state.
    - matplotlib's figure is a value recording what was drawn on it; the
      rasterisation and encoding done by [savefig] is a parameter
      ([render]), and so is the write of the encoded image through the
      operating system ([os_write]): the operating system decides whether
      the write returns or raises (a missing parent directory, permissions,
      a directory at the path, a full disk) and what the file system holds
      afterwards, in both cases.
    - numpy's arithmetic is modelled: integers as [Z] with the wrap-around of
      the 64-bit default integer written out, floating-point values as IEEE
      754 binary32 numbers with the subtraction and division of the
      standard library's [SpecFloat] (rounding to nearest, overflow to
      infinity, gradual underflow). *)

From Stdlib Require Import ZArith QArith Qpower Lqa Lia Ascii String List Zpower.
From Stdlib Require Import Floats.SpecFloat.
From stdpp Require Import base option list strings gmap fin_maps.

Local Open Scope string_scope.
Local Open Scope Z_scope.

(** ** Exceptions *)

Inductive exn : Type :=
| ValueError (msg : string)
| IndexError (msg : string)
| IsADirectoryError (path : string)
| OSError (msg path : string)
| LibraryError (origin msg : string).

(** The configuration-kind error of the class is Python's [ValueError]. *)
Definition is_ValueError (e : exn) : bool :=
  match e with ValueError _ => true | _ => false end.

(** [str.format] with a single [{}] placeholder, as used by the constructor. *)
Definition format_not_a_directory (d : string) : string :=
  "'" ++ d ++ "' not a valid directory.".

(** ** numpy integers *)

Definition wrap_int64 (z : Z) : Z := (z + 2 ^ 63) mod 2 ^ 64 - 2 ^ 63.

(** [np.square] applied to a Python [int].  numpy first converts the
    integer to an array scalar of its default integer type, [int64], when it
    fits, to [uint64] for 2^63 .. 2^64 - 1 and to a Python object otherwise;
    the square is taken in that type and wraps silently in the two
    fixed-width ones. *)
Definition np_square (d : Z) : Z :=
  if (- 2 ^ 63 <=? d) && (d <? 2 ^ 63) then wrap_int64 (d * d)
  else if (2 ^ 63 <=? d) && (d <? 2 ^ 64) then (d * d) mod 2 ^ 64
  else d * d.

(** [a[0:stop]] on the first axis: a negative [stop] counts from the end,
    and both ends are clipped to the length. *)
Definition slice_to {A} (stop : Z) (a : list A) : list A :=
  if stop <? 0 then firstn (Z.to_nat (Z.of_nat (length a) + stop)) a
  else firstn (Z.to_nat stop) a.

(** ** numpy floating-point values

    The array [fit_transform] returns has dtype float32, and the two in-place
    statements of [_generate_tsne] keep it.  Its entries are IEEE 754 binary32
    values: [spec_float] at a precision of 24 bits and a maximal exponent of
    128.  Subtraction and division are [SFsub] and [SFdiv] of the standard
    library: exact result rounded to nearest (ties to even), overflow to an
    infinity, gradual underflow, nan for 0/0, inf/inf and inf - inf. *)

Definition npfloat : Type := spec_float.

Abbreviation NaN := S754_nan.

Definition np_sub : npfloat -> npfloat -> npfloat := SFsub 24 128.

(** True division. *)
Definition np_div : npfloat -> npfloat -> npfloat := SFdiv 24 128.

(** [np.float32(z)] of an integer [z]. *)
Definition np_float32 (z : Z) : npfloat := binary_normalize 24 128 z 0 false.

(** Zeros and numbers, as opposed to infinities and nan. *)
Definition is_finite (v : npfloat) : Prop :=
  match v with S754_zero _ | S754_finite _ _ _ => True | _ => False end.

(** The real number a zero or a number stands for: mantissa times 2 to the
    exponent, with the sign.  (0 for infinities and nan, where it is not
    used.) *)
Definition F2Q (v : npfloat) : Q :=
  match v with
  | S754_finite s m e => inject_Z (cond_Zopp s (Zpos m)) * 2 ^ e
  | _ => 0
  end.

(** [v] is a number of the closed interval [0, 1]. *)
Definition in_unit (v : npfloat) : Prop :=
  is_finite v /\ (0 <= F2Q v /\ F2Q v <= 1)%Q.

(** [v] is the number [q]. *)
Definition is_num (q : Q) (v : npfloat) : Prop :=
  is_finite v /\ (F2Q v == q)%Q.

(** [a <= b] on floats: false as soon as one side is nan, the infinities at
    the two ends, and the order of the numbers they stand for otherwise (so
    that -0.0 <= 0.0 and 0.0 <= -0.0). *)
Definition np_leb (a b : npfloat) : bool :=
  match a, b with
  | S754_nan, _ | _, S754_nan => false
  | S754_infinity true, _ | _, S754_infinity false => true
  | S754_infinity false, _ | _, S754_infinity true => false
  | _, _ => Qle_bool (F2Q a) (F2Q b)
  end.

(** [a < b]. *)
Definition np_ltb (a b : npfloat) : bool := np_leb a b && negb (np_leb b a).

(** [np.minimum] and [np.maximum]: nan propagates; otherwise the loops of
    numpy take [a < b ? a : b] and [a >= b ? a : b]. *)
Definition np_minimum (a b : npfloat) : npfloat :=
  match a, b with
  | S754_nan, _ | _, S754_nan => NaN
  | _, _ => if np_ltb a b then a else b
  end.

Definition np_maximum (a b : npfloat) : npfloat :=
  match a, b with
  | S754_nan, _ | _, S754_nan => NaN
  | _, _ => if np_leb b a then a else b
  end.

(** A reduction along an axis raises on an axis of length zero. *)
Definition reduce_axis (name : string) (f : npfloat -> npfloat -> npfloat)
    (l : list npfloat) : exn + npfloat :=
  match l with
  | [] => inl (ValueError ("zero-size array to reduction operation " ++ name
                           ++ " which has no identity"))
  | v :: t => inr (fold_left f t v)
  end.

(** ** Arrays of shape (n, 3) *)

Record point3 : Type := P3 { px : npfloat; py : npfloat; pz : npfloat }.

Inductive axis : Type := AX | AY | AZ.

(** [value[0]], [value[1]], [value[2]]. *)
Definition coord (a : axis) (p : point3) : npfloat :=
  match a with AX => px p | AY => py p | AZ => pz p end.

Definition column (a : axis) (X : list point3) : list npfloat :=
  map (coord a) X.

(** Broadcasting of a row [m] over the rows of the array. *)
Definition broadcast (f : npfloat -> npfloat -> npfloat) (m p : point3) : point3 :=
  P3 (f (px p) (px m)) (f (py p) (py m)) (f (pz p) (pz m)).

Definition reduce_axis0 (name : string) (f : npfloat -> npfloat -> npfloat)
    (X : list point3) : exn + point3 :=
  match reduce_axis name f (column AX X),
        reduce_axis name f (column AY X),
        reduce_axis name f (column AZ X) with
  | inr x, inr y, inr z => inr (P3 x y z)
  | inl e, _, _ | _, inl e, _ | _, _, inl e => inl e
  end.

(** [X.min(axis=0)] and [X.max(axis=0)]. *)
Definition np_min_axis0 := reduce_axis0 "minimum" np_minimum.
Definition np_max_axis0 := reduce_axis0 "maximum" np_maximum.

(** ** The world outside the process *)

(** File system, as the process sees it: what a path, as written, names.
    How paths resolve (current directory, links, several names for one
    file) and what a write does are the operating system's, see
    [os_write]. *)
Inductive node : Type :=
| Dir
| File (content : list Byte.byte).

Definition is_file (o : option node) : Prop :=
  match o with Some (File _) => True | _ => False end.

(** [os.path.exists]. *)
Definition os_path_exists (fs : gmap string node) (p : string) : bool :=
  bool_decide (is_Some (fs !! p)).

(** [os.path.join] of two components (posixpath).  The class does not call
    it; it gives the path [<output_directory>/<output_name>] that the
    documentation of the constructor arguments points to. *)
Definition os_path_join (a b : string) : string :=
  match b with
  | String "/"%char _ => b
  | _ =>
      if bool_decide (a = "") then b
      else match last (list_ascii_of_string a) with
           | Some "/"%char => a ++ b
           | _ => a ++ "/" ++ b
           end
  end.

(** Keyword arguments of sklearn's [TSNE(...)]. *)
Record TSNE : Type := mkTSNE {
  tsne_perplexity : Z;
  tsne_n_components : Z;
  tsne_init : string;
  tsne_n_iter : Z
}.

(** What was drawn on the 3D axes, in drawing order. *)
Inductive artist : Type :=
| Scatter (x y z : npfloat)
| Text (x y z : npfloat) (s : string) (size zorder : Z) (color : string).

Record figure : Type := mkFigure {
  figsize : Z * Z;
  subplot : Z;
  projection : string;
  artists : list artist
}.

(** Calls that leave the class, in the order they are made. *)
Inductive call : Type :=
| CallFitTransform (tsne : TSNE) (data : list (list npfloat))
| CallSavefig (fname : string) (quality : Z) (fig : figure).

(** What lies behind the class: sklearn, matplotlib and the operating
    system.  [R] is the state of the random generator sklearn draws from.
    [os_write fs path bytes] is the attempt to create or truncate the file at
    [path] and to write [bytes] to it: it returns or raises, and gives the
    file system left behind in both cases. *)
Class Libraries (R : Type) : Type := {
  tsne_fit_transform : TSNE -> list (list npfloat) -> R -> (exn + list point3) * R;
  render : figure -> string -> Z -> exn + list Byte.byte;
  os_write : gmap string node -> string -> list Byte.byte
             -> (exn + unit) * gmap string node
}.

Record world (R : Type) : Type := mkWorld {
  fs : gmap string node;
  rng : R;
  calls : list call
}.
Arguments mkWorld {R} _ _ _.
Arguments fs {R} _.
Arguments rng {R} _.
Arguments calls {R} _.

(** ** Computations: state of the world and Python exceptions

    A computation returns a value or raises; in both cases the effects it
    made on the world stay. *)
Definition M (R A : Type) : Type := world R -> (exn + A) * world R.

Definition ret {R A} (a : A) : M R A := fun w => (inr a, w).

Definition bind {R A B} (m : M R A) (k : A -> M R B) : M R B :=
  fun w => match m w with
           | (inl e, w') => (inl e, w')
           | (inr a, w') => k a w'
           end.

Definition lift {R A} (r : exn + A) : M R A := fun w => (r, w).

Notation "'do' x <~ m ;; k" := (bind m (fun x => k))
  (at level 10, x name, m at level 99, k at level 200).

(** [l[i]] on a Python list, for a non-negative [i]. *)
Definition getitem {A} (l : list A) (i : nat) : exn + A :=
  match l !! i with
  | Some v => inr v
  | None => inl (IndexError "list index out of range")
  end.

(** [for i in range(n)] over a state [S], stopping at the first exception. *)
Fixpoint for_range {S} (body : nat -> S -> exn + S) (idx : list nat) (s : S) : exn + S :=
  match idx with
  | [] => inr s
  | i :: rest =>
      match body i s with
      | inl e => inl e
      | inr s' => for_range body rest s'
      end
  end.

(** An external class; only its attribute [_texts] is read. *)
Record TextRepresentation : Type := mkTextRepresentation {
  _texts : list string
}.

(** ** The class *)

Record TSNECaption3DScatter : Type := mkSelf {
  activations : list (list npfloat);
  text_representation : TextRepresentation;
  output_dimension : Z;
  output_name : string;
  output_directory : string;
  perplexity : Z;
  iterations : Z;
  caption_size : Z;
  output_size : Z * Z;
  quality : Z;
  to_plot : Z
}.

(** Default values of the optional constructor arguments. *)
Definition default_output_dimension : Z := 10.
Definition default_output_name : string := "tsne_caption_3d_scatter.jpg".
Definition default_output_directory : string := "./".
Definition default_perplexity : Z := 50.
Definition default_iterations : Z := 5000.
Definition default_caption_size : Z := 10.
Definition default_output_size : Z * Z := (50, 50).
Definition default_quality : Z := 100.

(** [TSNECaption3DScatter.__init__]: the attributes are set, then the two
    checks run in this order.  The result is the constructed object or the
    exception raised; the file system is only read. *)
Definition __init__ (fs : gmap string node)
    (activations' : list (list npfloat)) (text_representation' : TextRepresentation)
    (output_dimension' : Z) (output_name' output_directory' : string)
    (perplexity' iterations' caption_size' : Z) (output_size' : Z * Z) (quality' : Z)
    : exn + TSNECaption3DScatter :=
  let self :=
    {| activations := activations';
       text_representation := text_representation';
       output_dimension := output_dimension';
       output_name := output_name';
       output_directory := output_directory';
       perplexity := perplexity';
       iterations := iterations';
       caption_size := caption_size';
       output_size := output_size';
       quality := quality';
       to_plot := np_square output_dimension' |} in
  if output_dimension self =? 1 then
    inl (ValueError "Output scatter dimension 1x1 not supported.")
  else if negb (os_path_exists fs (output_directory self)) then
    inl (ValueError (format_not_a_directory (output_directory self)))
  else inr self.

Section Methods.
Context {R : Type} `{L : Libraries R}.

(** [TSNE.fit_transform] as seen from the class: the call is recorded and
    the generator state advances. *)
Definition fit_transform (tsne : TSNE) (data : list (list npfloat)) : M R (list point3) :=
  fun w =>
    let '(r, g) := tsne_fit_transform tsne data (rng w) in
    (r, mkWorld (fs w) g (calls w ++ [CallFitTransform tsne data])%list).

(** [plt.savefig(fname, quality=...)] on the current figure: the figure is
    rendered and, unless that raised, the image is handed to the operating
    system to be written at [fname].  An exception of either step is the
    exception of [savefig]; the file system is the one the write left. *)
Definition savefig (fig : figure) (fname : string) (quality : Z) : M R unit :=
  fun w =>
    let log := (calls w ++ [CallSavefig fname quality fig])%list in
    match render fig fname quality with
    | inl e => (inl e, mkWorld (fs w) (rng w) log)
    | inr img =>
        let '(r, fs') := os_write (fs w) fname img in
        (r, mkWorld fs' (rng w) log)
    end.

Definition _generate_tsne (self : TSNECaption3DScatter) : M R (list point3) :=
  let tsne := mkTSNE (perplexity self) 3 "pca" (iterations self) in
  do X_3d <~ fit_transform tsne (slice_to (to_plot self) (activations self)) ;;
  do lo <~ lift (np_min_axis0 X_3d) ;;
  let X_3d := map (broadcast np_sub lo) X_3d in
  do hi <~ lift (np_max_axis0 X_3d) ;;
  let X_3d := map (broadcast np_div hi) X_3d in
  ret X_3d.

(** The first loop of [_plot_tsne_scatter]: three lists grown by [append]. *)
Definition split_columns (X_3d : list point3)
    : list npfloat * list npfloat * list npfloat :=
  fold_left (fun '(x, y, z) value =>
               ((x ++ [coord AX value])%list,
                (y ++ [coord AY value])%list,
                (z ++ [coord AZ value])%list))
            X_3d ([], [], []).

(** The body of the second loop: a marker, then the caption at the same
    coordinates. *)
Definition draw_point (self : TSNECaption3DScatter) (x y z : list npfloat)
    (texts : list string) (i : nat) (ax : list artist) : exn + list artist :=
  match getitem x i, getitem y i, getitem z i with
  | inr xi, inr yi, inr zi =>
      let ax := (ax ++ [Scatter xi yi zi])%list in
      match getitem texts i with
      | inr t => inr (ax ++ [Text xi yi zi t (caption_size self) 1 "k"])%list
      | inl e => inl e
      end
  | inl e, _, _ | _, inl e, _ | _, _, inl e => inl e
  end.

Definition _plot_tsne_scatter (self : TSNECaption3DScatter) (X_3d : list point3)
    (texts : list string) (output_dimension : Z) : M R unit :=
  let '(x, y, z) := split_columns X_3d in
  let fig := mkFigure (output_size self) 111 "3d" [] in
  do ax <~ lift (for_range (draw_point self x y z texts) (seq 0 (length x)) (artists fig)) ;;
  let fig := mkFigure (figsize fig) (subplot fig) (projection fig) ax in
  savefig fig (output_name self) (quality self).

Definition generate (self : TSNECaption3DScatter) : M R unit :=
  do X_3d <~ _generate_tsne self ;;
  _plot_tsne_scatter self X_3d (_texts (text_representation self)) (output_dimension self).

End Methods.

(** * Vocabulary of the statements *)

(** ** Min-max normalisation

    What [X -= X.min(axis=0); X /= X.max(axis=0)] does to one column [l]:
    every entry [v] becomes [(v - lo) / hi] with [lo] the minimum of [l] and
    [hi] the maximum of the shifted column, each operation rounded. *)

Definition shift_column (lo : npfloat) (l : list npfloat) : list npfloat :=
  map (fun v => np_sub v lo) l.

Definition scale_column (hi : npfloat) (l : list npfloat) : list npfloat :=
  map (fun v => np_div v hi) l.

(** The divisor of the second statement on one column: the maximum of the
    column shifted by its minimum. *)
Definition divisor (l : list npfloat) : exn + npfloat :=
  match reduce_axis "minimum" np_minimum l with
  | inl e => inl e
  | inr lo => reduce_axis "maximum" np_maximum (shift_column lo l)
  end.

Definition is_zero (v : npfloat) : Prop :=
  match v with S754_zero _ => True | _ => False end.

(** The column holds numbers only, and its divisor is a number other than
    zero: the entries are not all equal, and the largest difference to the
    minimum does not overflow. *)
Definition spread (l : list npfloat) : Prop :=
  Forall is_finite l /\
  exists h, divisor l = inr h /\ is_finite h /\ ~ is_zero h.

(** The column is not empty and every entry is the number [c]. *)
Definition constant (c : Q) (l : list npfloat) : Prop :=
  l <> [] /\ Forall (is_num c) l.

(** The two in-place statements of [_generate_tsne], without the world. *)
Definition normalise (X : list point3) : exn + list point3 :=
  match np_min_axis0 X with
  | inl e => inl e
  | inr lo =>
      let X1 := map (broadcast np_sub lo) X in
      match np_max_axis0 X1 with
      | inl e => inl e
      | inr hi => inr (map (broadcast np_div hi) X1)
      end
  end.

(** The first dimension of a numpy array is a signed 64-bit integer. *)
Definition ndarray_rows (a : list (list npfloat)) : Prop :=
  Z.of_nat (length a) < 2 ^ 63.

(** The property asked of the result of [_generate_tsne] for a grid
    dimension [d]: [d]² points, every coordinate in [0, 1], and with more than
    one point, minimum 0 and maximum 1 on each axis. *)
Definition embedding_normalised (d : Z) (X : list point3) : Prop :=
  Z.of_nat (length X) = d * d /\
  (forall a, Forall in_unit (column a X)) /\
  ((1 < length X)%nat ->
     exists lo hi, np_min_axis0 X = inr lo /\ np_max_axis0 X = inr hi
       /\ forall a, is_num 0 (coord a lo) /\ is_num 1 (coord a hi)).

(** ** Shapes of floating-point results, used in the proofs about rounding *)

(** [v] carries the sign bit [s], if it has one. *)
Definition has_sign (s : bool) (v : npfloat) : Prop :=
  match v with
  | S754_zero s' | S754_infinity s' | S754_finite s' _ _ => s' = s
  | S754_nan => True
  end.

(** [v] is a zero of either sign, a positive number, plus infinity or nan. *)
Definition not_negative (v : npfloat) : Prop :=
  match v with
  | S754_finite true _ _ | S754_infinity true => False
  | _ => True
  end.

(** Nothing was shifted out of the mantissa so far. *)
Definition exact_rec (mrs : shr_record) : Prop :=
  shr_r mrs = false /\ shr_s mrs = false.

(** ** The steps of [generate] *)

(** The keyword arguments [_generate_tsne] builds the [TSNE] object with. *)
Definition tsne_of (self : TSNECaption3DScatter) : TSNE :=
  mkTSNE (perplexity self) 3 "pca" (iterations self).

(** The rows [_generate_tsne] passes to [fit_transform]. *)
Definition plotted_rows (self : TSNECaption3DScatter) : list (list npfloat) :=
  slice_to (to_plot self) (activations self).

Definition after_fit_transform {R} (self : TSNECaption3DScatter) (w : world R) (g : R)
    : world R :=
  mkWorld (fs w) g (calls w ++ [CallFitTransform (tsne_of self) (plotted_rows self)]).

(** The artists the second loop adds for one point and its caption. *)
Definition caption_artists (self : TSNECaption3DScatter) (p : point3) (t : string)
    : list artist :=
  [Scatter (coord AX p) (coord AY p) (coord AZ p);
   Text (coord AX p) (coord AY p) (coord AZ p) t (caption_size self) 1 "k"].

Fixpoint drawn (self : TSNECaption3DScatter) (X : list point3) (texts : list string)
    : list artist :=
  match X, texts with
  | p :: X', t :: texts' => (caption_artists self p t ++ drawn self X' texts')%list
  | _, _ => []
  end.

(** The second loop of [_plot_tsne_scatter], on the columns of [X]. *)
Definition draw_all (self : TSNECaption3DScatter) (X : list point3) (texts : list string)
    : exn + list artist :=
  for_range (draw_point self (column AX X) (column AY X) (column AZ X) texts)
            (seq 0 (length X)) [].

Definition scatter_figure (self : TSNECaption3DScatter) (ax : list artist) : figure :=
  mkFigure (output_size self) 111 "3d" ax.

(** The figure [generate] hands to [savefig] for the points [X]. *)
Definition saved_figure (self : TSNECaption3DScatter) (X : list point3) : figure :=
  scatter_figure self (drawn self X (_texts (text_representation self))).

(** The trace of a call of [generate] that reached [savefig] with the
    points [X]. *)
Definition generate_calls (self : TSNECaption3DScatter) (X : list point3) : list call :=
  [CallFitTransform (tsne_of self) (plotted_rows self);
   CallSavefig (output_name self) (quality self) (saved_figure self X)].

Section Outcomes.
Context {R : Type} `{L : Libraries R}.

(** The embedding step raised [e], leaving the world [w']. *)
Definition embedding_fails (self : TSNECaption3DScatter) (w : world R)
    (e : exn) (w' : world R) : Prop :=
  _generate_tsne self w = (inl e, w').

(** The embedding and the drawing went through and [savefig] raised [e],
    leaving the world [w']. *)
Definition save_fails (self : TSNECaption3DScatter) (w : world R)
    (e : exn) (w' : world R) : Prop :=
  exists X w1 ax,
    _generate_tsne self w = (inr X, w1) /\
    draw_all self X (_texts (text_representation self)) = inr ax /\
    savefig (scatter_figure self ax) (output_name self) (quality self) w1 = (inl e, w').

(** sklearn's contract on shapes: one output row per input row. *)
Definition one_point_per_row : Prop :=
  forall tsne data g pts g',
    tsne_fit_transform tsne data g = (inr pts, g') -> length pts = length data.

(** The operating system's contract on a write that returns: the path then
    names a regular file that holds the bytes written. *)
Definition write_leaves_file : Prop :=
  forall fs0 path img fs1,
    os_write fs0 path img = (inr tt, fs1) -> fs1 !! path = Some (File img).

(** The operating system lets the process write over a regular file at
    [path]. *)
Definition overwrite_accepted (path : string) : Prop :=
  forall fs0 img,
    is_file (fs0 !! path) -> exists fs1, os_write fs0 path img = (inr tt, fs1).

End Outcomes.

(** ** Stand-ins for the libraries, used to run the class on concrete inputs *)

(** A reduction that keeps the first three features of a row. *)
Definition first_three (row : list npfloat) : point3 :=
  P3 (nth 0 row (S754_zero false)) (nth 1 row (S754_zero false))
     (nth 2 row (S754_zero false)).

(** A write that is refused on a directory and otherwise leaves the bytes
    at the path as written. *)
Definition stub_write (fs0 : gmap string node) (path : string) (img : list Byte.byte)
    : (exn + unit) * gmap string node :=
  match fs0 !! path with
  | Some Dir => (inl (IsADirectoryError path), fs0)
  | _ => (inr tt, <[path := File img]> fs0)
  end.

(** A write that stops on a full disk, after the file was created. *)
Definition stub_write_disk_full (fs0 : gmap string node) (path : string)
    (img : list Byte.byte) : (exn + unit) * gmap string node :=
  (inl (OSError "No space left on device" path), <[path := File []]> fs0).

(** One output row per input row; the generator state counts the calls. *)
Definition stub_libraries : Libraries nat := {|
  tsne_fit_transform := fun _ data g => (inr (map first_three data), S g);
  render := fun _ _ _ => inr [Byte.xff; Byte.xd8];
  os_write := stub_write
|}.

(** sklearn raising [e]. *)
Definition stub_tsne_raises (e : exn) : Libraries nat := {|
  tsne_fit_transform := fun _ _ g => (inl e, S g);
  render := fun _ _ _ => inr [Byte.xff; Byte.xd8];
  os_write := stub_write
|}.

(** matplotlib raising [e] while it renders the figure. *)
Definition stub_render_raises (e : exn) : Libraries nat := {|
  tsne_fit_transform := fun _ data g => (inr (map first_three data), S g);
  render := fun _ _ _ => inl e;
  os_write := stub_write
|}.

(** The operating system raising while the image is written. *)
Definition stub_disk_full : Libraries nat := {|
  tsne_fit_transform := fun _ data g => (inr (map first_three data), S g);
  render := fun _ _ _ => inr [Byte.xff; Byte.xd8];
  os_write := stub_write_disk_full
|}.

Definition row3 (a b c : Z) : list npfloat :=
  [np_float32 a; np_float32 b; np_float32 c].

(** Four activation rows of three features, spread on every axis. *)
Definition sample_activations : list (list npfloat) :=
  [row3 0 4 1; row3 2 0 5; row3 4 2 3; row3 1 1 1].

(** Four activation rows whose third feature is the same in every row. *)
Definition flat_activations : list (list npfloat) :=
  [row3 0 4 7; row3 2 0 7; row3 4 2 7; row3 1 1 7].

Definition sample_texts : TextRepresentation :=
  mkTextRepresentation ["a cat"; "a dog"; "a bird"; "a fish"; "a horse"].

(** A file system with the directories [./] and [out] and nothing else. *)
Definition sample_fs : gmap string node :=
  <["./" := Dir]> (<["out" := Dir]> ∅).

Definition sample_world : world nat := mkWorld sample_fs 0%nat [].

(** The object built by
    [TSNECaption3DScatter(activations, texts, output_dimension=2,
    output_name='scatter.jpg', output_directory='out')]. *)
Definition sample_self (acts : list (list npfloat)) : TSNECaption3DScatter :=
  {| activations := acts;
     text_representation := sample_texts;
     output_dimension := 2;
     output_name := "scatter.jpg";
     output_directory := "out";
     perplexity := default_perplexity;
     iterations := default_iterations;
     caption_size := default_caption_size;
     output_size := default_output_size;
     quality := default_quality;
     to_plot := 4 |}.

(** The object the constructor builds from a matrix, the captions and a grid
    dimension, the other arguments being those of [sample_self]. *)
Definition sample_object (acts : list (list npfloat)) (texts : TextRepresentation)
    (d : Z) : TSNECaption3DScatter :=
  {| activations := acts;
     text_representation := texts;
     output_dimension := d;
     output_name := "scatter.jpg";
     output_directory := "out";
     perplexity := default_perplexity;
     iterations := default_iterations;
     caption_size := default_caption_size;
     output_size := default_output_size;
     quality := default_quality;
     to_plot := np_square d |}.

(** Two captions, fewer than the four sample rows. *)
Definition few_texts : TextRepresentation :=
  mkTextRepresentation ["a cat"; "a dog"].

(** Four activation rows; the first feature of the second row is nan. *)
Definition nan_activations : list (list npfloat) :=
  [row3 0 4 1; [NaN; np_float32 0; np_float32 5]; row3 4 2 3; row3 1 1 1].

(** The largest float32 number, (2^24 - 1) * 2^104, and its opposite. *)
Definition float32_max : npfloat := S754_finite false 16777215 104.
Definition float32_min : npfloat := S754_finite true 16777215 104.

(** Four activation rows; the first feature spans the whole range of
    float32. *)
Definition wide_activations : list (list npfloat) :=
  [float32_max :: row3 4 1 0; float32_min :: row3 0 5 0;
   np_float32 0 :: row3 2 3 0; np_float32 1 :: row3 1 1 0].

(** A file system in which [out] is a regular file. *)
Definition file_fs : gmap string node :=
  <["out" := File [Byte.x00]]> ∅.

(** * Properties *)

(** ** numpy integers and slices *)

Lemma np_square_exact (d : Z) : d * d < 2 ^ 63 -> np_square d = d * d.
Proof.
  intros Hd. unfold np_square.
  assert (Hr : - 2 ^ 63 <= d < 2 ^ 63) by nia.
  destruct Hr as [Hlo Hhi].
  apply Z.leb_le in Hlo. apply Z.ltb_lt in Hhi.
  rewrite Hlo, Hhi. simpl andb. cbv iota.
  unfold wrap_int64.
  rewrite Z.mod_small by nia. lia.
Qed.

Lemma slice_to_firstn {A} (n : Z) (a : list A) :
  0 <= n -> slice_to n a = firstn (Z.to_nat n) a.
Proof.
  intros Hn. unfold slice_to.
  destruct (n <? 0) eqn:E; [apply Z.ltb_lt in E; lia | reflexivity].
Qed.

Lemma slice_to_length {A} (n : Z) (a : list A) :
  0 <= n <= Z.of_nat (length a) -> length (slice_to n a) = Z.to_nat n.
Proof.
  intros [H0 Hn]. rewrite slice_to_firstn by assumption.
  rewrite length_firstn. lia.
Qed.

(** ** Floating-point values as numbers *)

Lemma pow2_pos (e : Z) : (0 < 2 ^ e)%Q.
Proof. apply Qpower_0_lt. reflexivity. Qed.

Lemma pow2_add (a b : Z) : (2 ^ (a + b) == 2 ^ a * 2 ^ b)%Q.
Proof. apply Qpower_plus. discriminate. Qed.

Lemma pow2_inject (n : Z) : 0 <= n -> (2 ^ n == inject_Z (2 ^ n))%Q.
Proof. intros H. rewrite Zpower_Qpower by exact H. reflexivity. Qed.

Lemma scale_le (a b : Z) (e : Z) :
  (inject_Z a * 2 ^ e <= inject_Z b * 2 ^ e)%Q <-> a <= b.
Proof.
  rewrite Qmult_le_r by apply pow2_pos. rewrite <- Zle_Qle. reflexivity.
Qed.

Lemma scale_eq (a b : Z) (e : Z) :
  (inject_Z a * 2 ^ e == inject_Z b * 2 ^ e)%Q <-> a = b.
Proof.
  split.
  - intros H. apply Qmult_inj_r in H.
    + unfold Qeq in H. simpl in H. lia.
    + pose proof (pow2_pos e). lra.
  - intros ->. reflexivity.
Qed.

Lemma shl_align_spec (mx : positive) (ex ez : Z) :
  ez <= ex ->
  Zpos (fst (shl_align mx ex ez)) = Zpos mx * 2 ^ (ex - ez).
Proof.
  intros H. unfold shl_align.
  destruct (ez - ex) as [|d|d] eqn:E.
  - simpl. replace (ex - ez) with 0 by lia. lia.
  - lia.
  - replace (ex - ez) with (Zpos d) by lia.
    cbn [fst]. change (Pos.iter xO mx d) with (shift_pos d mx).
    rewrite shift_pos_correct, Zpower_pos_powerRZ || rewrite shift_pos_correct.
    rewrite <- Z.pow_pos_fold || idtac.
    lia.
Qed.

Lemma cond_Zopp_mul (s : bool) (a b : Z) : cond_Zopp s (a * b) = cond_Zopp s a * b.
Proof. destruct s; simpl; lia. Qed.

Lemma F2Q_align (s : bool) (m : positive) (e ez : Z) :
  ez <= e ->
  (F2Q (S754_finite s m e)
   == inject_Z (cond_Zopp s (Zpos (fst (shl_align m e ez)))) * 2 ^ ez)%Q.
Proof.
  intros H. rewrite shl_align_spec by exact H. rewrite cond_Zopp_mul.
  unfold F2Q. rewrite inject_Z_mult.
  replace e with ((e - ez) + ez) at 1 by lia.
  rewrite pow2_add, (pow2_inject (e - ez)) by lia. ring.
Qed.

Lemma binary_round_aux_sign s m e l : has_sign s (binary_round_aux 24 128 s m e l).
Proof.
  unfold binary_round_aux.
  destruct (shr_fexp 24 128 m e l) as [mrs' e'].
  destruct (shr_fexp 24 128 _ e' loc_Exact) as [mrs'' e''].
  destruct (shr_m mrs''); simpl; auto.
  destruct (e'' <=? 128 - 24); simpl; auto.
Qed.

Lemma binary_normalize_sign D e :
  0 <= D -> has_sign false (binary_normalize 24 128 D e false).
Proof.
  intros H. destruct D as [|p|p]; simpl; auto; [|lia].
  unfold binary_round. destruct (shl_align _ _ _). apply binary_round_aux_sign.
Qed.

Lemma F2Q_zero s : F2Q (S754_zero s) = 0%Q.
Proof. reflexivity. Qed.

Lemma F2Q_finite_pos m e : (0 < F2Q (S754_finite false m e))%Q.
Proof.
  unfold F2Q. simpl. apply Qmult_lt_0_compat; [|apply pow2_pos].
  unfold Qlt. simpl. lia.
Qed.

Lemma F2Q_finite_neg m e : (F2Q (S754_finite true m e) < 0)%Q.
Proof.
  pose proof (F2Q_finite_pos m e) as H. unfold F2Q in *. simpl in *.
  assert (E : (inject_Z (Z.neg m) == - inject_Z (Z.pos m))%Q) by reflexivity.
  rewrite E. lra.
Qed.

(** The integer the subtraction rounds. *)
Lemma np_sub_finite sx mx ex sy my ey :
  exists D,
    np_sub (S754_finite sx mx ex) (S754_finite sy my ey)
      = binary_normalize 24 128 D (Z.min ex ey) false
    /\ (F2Q (S754_finite sx mx ex) - F2Q (S754_finite sy my ey)
        == inject_Z D * 2 ^ (Z.min ex ey))%Q.
Proof.
  eexists. split; [reflexivity|].
  rewrite (F2Q_align sx mx ex (Z.min ex ey)) by lia.
  rewrite (F2Q_align sy my ey (Z.min ex ey)) by lia.
  unfold Z.sub at 1. rewrite inject_Z_plus, inject_Z_opp. ring.
Qed.

Lemma has_sign_not_negative v : has_sign false v -> not_negative v.
Proof. destruct v as [s|s| |s m e]; simpl; intros H; subst; auto. Qed.

Lemma np_sub_not_negative (x y : npfloat) :
  is_finite x -> is_finite y -> (F2Q y <= F2Q x)%Q -> not_negative (np_sub x y).
Proof.
  intros Hx Hy Hle.
  destruct x as [sx|sx| |sx mx ex]; try contradiction;
    destruct y as [sy|sy| |sy my ey]; try contradiction.
  - destruct sx, sy; exact I.
  - destruct sy; [exact I|].
    pose proof (F2Q_finite_pos my ey). rewrite F2Q_zero in Hle. lra.
  - destruct sx; [|exact I].
    pose proof (F2Q_finite_neg mx ex). rewrite F2Q_zero in Hle. lra.
  - destruct (np_sub_finite sx mx ex sy my ey) as (D & HD & EV).
    rewrite HD. apply has_sign_not_negative, binary_normalize_sign.
    apply (scale_le 0 D (Z.min ex ey)).
    rewrite <- EV. change (inject_Z 0) with 0%Q. lra.
Qed.

Lemma np_sub_equal (x y : npfloat) :
  is_finite x -> is_finite y -> (F2Q x == F2Q y)%Q -> is_zero (np_sub x y).
Proof.
  intros Hx Hy Heq.
  destruct x as [sx|sx| |sx mx ex]; try contradiction;
    destruct y as [sy|sy| |sy my ey]; try contradiction.
  - destruct sx, sy; exact I.
  - exfalso. destruct sy.
    + pose proof (F2Q_finite_neg my ey). rewrite F2Q_zero in Heq. lra.
    + pose proof (F2Q_finite_pos my ey). rewrite F2Q_zero in Heq. lra.
  - exfalso. destruct sx.
    + pose proof (F2Q_finite_neg mx ex). rewrite F2Q_zero in Heq. lra.
    + pose proof (F2Q_finite_pos mx ex). rewrite F2Q_zero in Heq. lra.
  - destruct (np_sub_finite sx mx ex sy my ey) as (D & HD & EV).
    rewrite HD.
    assert (D = 0).
    { apply (scale_eq D 0 (Z.min ex ey)). rewrite <- EV.
      change (inject_Z 0) with 0%Q. lra. }
    subst D. exact I.
Qed.

(** ** Rounding *)

Lemma digits2_pos_spec (p : positive) :
  2 ^ (Zpos (digits2_pos p) - 1) <= Zpos p < 2 ^ Zpos (digits2_pos p).
Proof.
  induction p as [p IH|p IH|]; cbn [digits2_pos].
  - rewrite Pos2Z.inj_succ. replace (Z.succ (Zpos (digits2_pos p)) - 1)
      with (Z.succ (Zpos (digits2_pos p) - 1)) by lia.
    rewrite !Z.pow_succ_r by lia. lia.
  - rewrite Pos2Z.inj_succ. replace (Z.succ (Zpos (digits2_pos p)) - 1)
      with (Z.succ (Zpos (digits2_pos p) - 1)) by lia.
    rewrite !Z.pow_succ_r by lia. lia.
  - simpl. lia.
Qed.

Lemma Zdigits2_le (a K : Z) : 0 <= a -> 0 <= K -> a <= 2 ^ K -> Zdigits2 a <= K + 1.
Proof.
  intros Ha HK Hle. destruct a as [|p|p]; simpl; [lia| |lia].
  pose proof (digits2_pos_spec p) as [Hlo _].
  destruct (Z_le_gt_dec (Zpos (digits2_pos p)) (K + 1)) as [|Hgt]; [assumption|].
  exfalso.
  assert (2 ^ (K + 1) <= 2 ^ (Zpos (digits2_pos p) - 1)) by (apply Z.pow_le_mono_r; lia).
  rewrite Z.pow_add_r in H by lia. lia.
Qed.

Lemma iter_pos_nat {A} (f : A -> A) (p : positive) (x : A) :
  SpecFloat.iter_pos f p x = Nat.iter (Pos.to_nat p) f x.
Proof.
  revert x. induction p as [p IH|p IH|]; intros x; cbn [SpecFloat.iter_pos].
  - rewrite !IH, Pos2Nat.inj_xI.
    rewrite <- Nat.iter_add. replace (Pos.to_nat p + Pos.to_nat p)%nat with (2 * Pos.to_nat p)%nat by lia.
    rewrite <- Nat.iter_succ_r. reflexivity.
  - rewrite !IH, Pos2Nat.inj_xO.
    rewrite <- Nat.iter_add. f_equal. lia.
  - reflexivity.
Qed.

Lemma shr_1_m (mrs : shr_record) :
  0 <= shr_m mrs -> shr_m (shr_1 mrs) = shr_m mrs / 2.
Proof.
  destruct mrs as [m r s]. cbn [shr_m]. intros Hm.
  destruct m as [|[p|p|]|p]; cbn [shr_1 shr_m]; try lia.
  - reflexivity.
  - apply Z.div_unique with 1; lia.
  - apply Z.div_unique with 0; lia.
  - reflexivity.
Qed.

Lemma shr_1_exact (mrs : shr_record) :
  0 <= shr_m mrs -> exact_rec mrs -> (2 | shr_m mrs) -> exact_rec (shr_1 mrs).
Proof.
  destruct mrs as [m r s]. unfold exact_rec. cbn [shr_m shr_r shr_s].
  intros Hm [-> ->] [c Hc].
  destruct m as [|[p|p|]|p]; cbn [shr_1 shr_r shr_s]; try lia; auto.
Qed.

Lemma iter_shr_m (n : nat) (mrs : shr_record) :
  0 <= shr_m mrs ->
  shr_m (Nat.iter n shr_1 mrs) = shr_m mrs / 2 ^ Z.of_nat n.
Proof.
  intros Hm. induction n as [|n IH].
  - simpl. rewrite Z.div_1_r. reflexivity.
  - rewrite Nat.iter_succ, shr_1_m.
    + rewrite IH, Nat2Z.inj_succ, Z.pow_succ_r by lia.
      rewrite Z.div_div by lia. f_equal. lia.
    + rewrite IH. apply Z.div_pos; lia.
Qed.

Lemma iter_shr_exact (n : nat) (mrs : shr_record) :
  0 <= shr_m mrs -> exact_rec mrs -> (2 ^ Z.of_nat n | shr_m mrs) ->
  exact_rec (Nat.iter n shr_1 mrs).
Proof.
  intros Hm Hex. induction n as [|n IH]; intros Hdiv.
  - exact Hex.
  - rewrite Nat.iter_succ.
    rewrite Nat2Z.inj_succ, Z.pow_succ_r in Hdiv by lia.
    destruct Hdiv as [c Hc].
    apply shr_1_exact.
    + rewrite iter_shr_m by exact Hm. apply Z.div_pos; lia.
    + apply IH. exists (c * 2). lia.
    + rewrite iter_shr_m by exact Hm. exists c.
      rewrite Hc. replace (c * (2 * 2 ^ Z.of_nat n)) with ((c * 2) * 2 ^ Z.of_nat n) by lia.
      rewrite Z.div_mul by lia. reflexivity.
Qed.

Lemma shr_spec (mrs : shr_record) (e n : Z) :
  0 <= shr_m mrs ->
  snd (shr mrs e n) = e + Z.max n 0
  /\ shr_m (fst (shr mrs e n)) = shr_m mrs / 2 ^ Z.max n 0
  /\ (exact_rec mrs -> (2 ^ Z.max n 0 | shr_m mrs) -> exact_rec (fst (shr mrs e n))).
Proof.
  intros Hm. unfold shr. destruct n as [|p|p]; cbn [fst snd].
  - rewrite Z.max_l by lia. rewrite Z.add_0_r, Z.div_1_r. auto.
  - rewrite Z.max_l by lia. rewrite iter_pos_nat.
    rewrite <- (positive_nat_Z p).
    split; [reflexivity|]. split.
    + apply iter_shr_m. exact Hm.
    + apply iter_shr_exact. exact Hm.
  - rewrite Z.max_r by lia. rewrite Z.add_0_r, Z.div_1_r. auto.
Qed.

Lemma shr_record_of_loc_m (m : Z) (l : location) : shr_m (shr_record_of_loc m l) = m.
Proof. destruct l as [|[| |]]; reflexivity. Qed.

Lemma exact_rec_loc (mrs : shr_record) : exact_rec mrs -> loc_of_shr_record mrs = loc_Exact.
Proof. destruct mrs as [m r s]. intros [H1 H2]. simpl in *. subst. reflexivity. Qed.

Lemma fexp_eq (x : Z) : fexp 24 128 x = Z.max (x - 24) (-149).
Proof. reflexivity. Qed.

(** One truncation step on a number that is at most 1. *)
Lemma shr_fexp_step (a e : Z) (l : location) :
  0 <= a -> e <= 0 -> a <= 2 ^ (- e) ->
  exists k,
    0 <= k /\
    snd (shr_fexp 24 128 a e l) = e + k /\
    e + k <= 0 /\
    shr_m (fst (shr_fexp 24 128 a e l)) = a / 2 ^ k /\
    0 <= shr_m (fst (shr_fexp 24 128 a e l)) <= 2 ^ (- (e + k)) /\
    (l = loc_Exact -> (2 ^ k | a) ->
       loc_of_shr_record (fst (shr_fexp 24 128 a e l)) = loc_Exact) /\
    (a = 2 ^ (- e) ->
       (2 ^ k | a) /\ shr_m (fst (shr_fexp 24 128 a e l)) = 2 ^ (- (e + k))).
Proof.
  intros Ha He Hle. unfold shr_fexp.
  set (n := fexp 24 128 (Zdigits2 a + e) - e).
  assert (Hrec : 0 <= shr_m (shr_record_of_loc a l)) by (rewrite shr_record_of_loc_m; exact Ha).
  destruct (shr_spec (shr_record_of_loc a l) e n Hrec) as (He1 & Hm1 & Hex1).
  rewrite shr_record_of_loc_m in Hm1, Hex1.
  exists (Z.max n 0).
  assert (Hk : e + Z.max n 0 <= 0).
  { pose proof (Zdigits2_le a (- e) Ha ltac:(lia) Hle) as Hd.
    subst n. rewrite fexp_eq. lia. }
  assert (Hpow : 2 ^ (- e) = 2 ^ (- (e + Z.max n 0)) * 2 ^ Z.max n 0).
  { rewrite <- Z.pow_add_r by lia. f_equal. lia. }
  split; [lia|]. split; [exact He1|]. split; [exact Hk|]. split; [exact Hm1|].
  split; [|split].
  - rewrite Hm1. split; [apply Z.div_pos; lia|].
    apply Z.div_le_upper_bound; [lia|]. rewrite Z.mul_comm, <- Hpow. exact Hle.
  - intros -> Hdiv. apply exact_rec_loc. apply Hex1; [|exact Hdiv].
    split; reflexivity.
  - intros ->. split.
    + exists (2 ^ (- (e + Z.max n 0))). exact Hpow.
    + rewrite Hm1, Hpow. apply Z.div_mul. lia.
Qed.

Lemma round_nearest_even_bounds (m : Z) (l : location) :
  m <= round_nearest_even m l <= m + 1
  /\ (l = loc_Exact -> round_nearest_even m l = m).
Proof.
  destruct l as [|[| |]]; cbn [round_nearest_even]; try (split; [lia | intros; congruence || reflexivity]).
  destruct (Z.even m); split; try lia; intros; congruence.
Qed.

(** Rounding a non-negative number that is at most 1 gives a number that is
    at most 1, and gives 1 when the number is 1 and known exactly. *)
Lemma binary_round_aux_le_one (q e : Z) (l : location) :
  0 <= q -> e <= 0 -> q <= 2 ^ (- e) -> (q = 2 ^ (- e) -> l = loc_Exact) ->
  match binary_round_aux 24 128 false q e l with
  | S754_zero s => s = false /\ q <> 2 ^ (- e)
  | S754_finite s m e2 =>
      s = false /\ e2 <= 0 /\ Zpos m <= 2 ^ (- e2)
      /\ (q = 2 ^ (- e) -> Zpos m = 2 ^ (- e2))
  | _ => False
  end.
Proof.
  intros Hq He Hle Hl. unfold binary_round_aux.
  destruct (shr_fexp_step q e l Hq He Hle)
    as (k1 & Hk1 & Hs1 & He1 & Hm1 & Hb1 & Hx1 & Hp1).
  destruct (shr_fexp 24 128 q e l) as [mrs1 e1]. cbn [fst snd] in *. subst e1.
  set (mr := round_nearest_even (shr_m mrs1) (loc_of_shr_record mrs1)).
  destruct (round_nearest_even_bounds (shr_m mrs1) (loc_of_shr_record mrs1)) as [Hr Hrx].
  fold mr in Hr, Hrx.
  assert (Hone : q = 2 ^ (- e) -> mr = 2 ^ (- (e + k1))).
  { intros Hq1. destruct (Hp1 Hq1) as [Hdiv Hm]. rewrite <- Hm.
    apply Hrx. apply Hx1; [apply Hl; exact Hq1 | exact Hdiv]. }
  assert (Hmr : 0 <= mr <= 2 ^ (- (e + k1))).
  { split; [lia|].
    destruct (Z_lt_le_dec (shr_m mrs1) (2 ^ (- (e + k1)))) as [Hlt|Hge]; [lia|].
    assert (Hq1 : q = 2 ^ (- e)).
    { assert (Hmul : 2 ^ k1 * (q / 2 ^ k1) <= q) by (apply Z.mul_div_le; lia).
      rewrite <- Hm1 in Hmul.
      assert (Hpow : 2 ^ (- e) = 2 ^ k1 * 2 ^ (- (e + k1))).
      { rewrite <- Z.pow_add_r by lia. f_equal. lia. }
      assert (2 ^ k1 * 2 ^ (- (e + k1)) <= 2 ^ k1 * shr_m mrs1) by (apply Z.mul_le_mono_nonneg_l; lia).
      lia. }
    rewrite (Hone Hq1). lia. }
  destruct Hmr as [Hmr0 Hmr1].
  destruct (shr_fexp_step mr (e + k1) loc_Exact Hmr0 He1 Hmr1)
    as (k2 & Hk2 & Hs2 & He2 & Hm2 & Hb2 & _ & Hp2).
  destruct (shr_fexp 24 128 mr (e + k1) loc_Exact) as [mrs2 e2]. cbn [fst snd] in *. subst e2.
  destruct (shr_m mrs2) as [|m|m] eqn:Em.
  - split; [reflexivity|]. intros Hq1.
    destruct (Hp2 (Hone Hq1)) as [_ Hz].
    assert (0 < 2 ^ (- (e + k1 + k2))) by (apply Z.pow_pos_nonneg; lia). lia.
  - assert (Hle2 : (e + k1 + k2 <=? 128 - 24) = true) by (apply Z.leb_le; lia).
    rewrite Hle2. split; [reflexivity|]. split; [exact He2|]. split; [lia|].
    intros Hq1. destruct (Hp2 (Hone Hq1)) as [_ Hz]. exact Hz.
  - lia.
Qed.

Lemma pow2_lt_inv (a b : Z) : (2 ^ a < 2 ^ b)%Q -> a < b.
Proof.
  intros H. destruct (Z_lt_le_dec a b) as [|Hge]; [assumption|]. exfalso.
  assert (2 ^ b <= 2 ^ a)%Q by (apply Qpower_le_compat_l; [exact Hge | discriminate]).
  lra.
Qed.

Lemma pow2_cancel (e : Z) : (2 ^ (- e) * 2 ^ e == 1)%Q.
Proof. rewrite <- pow2_add. replace (- e + e) with 0 by lia. reflexivity. Qed.

Lemma new_location_exact (nb : Z) : new_location nb 0 = loc_Exact.
Proof. unfold new_location. destruct (Z.even nb); reflexivity. Qed.

(** The quotient of two positive numbers, the first at most the second, is
    zero or a positive number that is at most 1, and it is 1 when the two
    are equal. *)
Lemma np_div_le_one (mx my : positive) (ex ey : Z) :
  (F2Q (S754_finite false mx ex) <= F2Q (S754_finite false my ey))%Q ->
  match np_div (S754_finite false mx ex) (S754_finite false my ey) with
  | S754_zero s =>
      s = false /\ ~ (F2Q (S754_finite false mx ex) == F2Q (S754_finite false my ey))%Q
  | S754_finite s m e =>
      s = false /\ (F2Q (S754_finite s m e) <= 1)%Q
      /\ ((F2Q (S754_finite false mx ex) == F2Q (S754_finite false my ey))%Q ->
          (F2Q (S754_finite s m e) == 1)%Q)
  | _ => False
  end.
Proof.
  intros Hle. unfold np_div, SFdiv, SFdiv_core_binary. cbn [xorb].
  cbn [Zdigits2].
  set (d1 := Zpos (digits2_pos mx)). set (d2 := Zpos (digits2_pos my)).
  set (e' := Z.min (fexp 24 128 (d1 + ex - (d2 + ey))) (ex - ey)).
  set (s := ex - ey - e').
  assert (Hs : 0 <= s) by (subst s e'; lia).
  unfold F2Q in Hle. cbn [cond_Zopp] in Hle.
  assert (Hd : d1 + ex - (d2 + ey) <= 0).
  { pose proof (digits2_pos_spec mx) as [Hlo _]. pose proof (digits2_pos_spec my) as [_ Hhi].
    fold d1 in Hlo. fold d2 in Hhi.
    assert (H1 : (2 ^ (d1 - 1 + ex) <= inject_Z (Zpos mx) * 2 ^ ex)%Q).
    { rewrite pow2_add, (pow2_inject (d1 - 1)) by (subst d1; lia).
      apply scale_le. exact Hlo. }
    assert (H2 : (inject_Z (Zpos my) * 2 ^ ey < 2 ^ (d2 + ey))%Q).
    { rewrite pow2_add, (pow2_inject d2) by (subst d2; lia).
      apply Qmult_lt_r; [apply pow2_pos|]. rewrite <- Zlt_Qlt. exact Hhi. }
    assert (H3 : (2 ^ (d1 - 1 + ex) < 2 ^ (d2 + ey))%Q) by lra.
    apply pow2_lt_inv in H3. lia. }
  assert (He' : e' <= 0) by (subst e'; rewrite fexp_eq; lia).
  assert (Hm' : match s with Z.pos _ => Z.shiftl (Zpos mx) s | 0 => Zpos mx | Z.neg _ => 0 end
                = Zpos mx * 2 ^ s).
  { destruct s as [|p|p] eqn:Es; [lia | | lia].
    rewrite Z.shiftl_mul_pow2 by lia. reflexivity. }
  rewrite Hm'. clear Hm'.
  assert (Hb : Zpos mx * 2 ^ s <= Zpos my * 2 ^ (- e')).
  { apply (scale_le _ _ (ey + e')).
    rewrite !inject_Z_mult, <- (pow2_inject s), <- (pow2_inject (- e')) by lia.
    rewrite <- !Qmult_assoc, <- !pow2_add.
    replace (s + (ey + e')) with ex by (subst s; lia).
    replace (- e' + (ey + e')) with ey by lia. exact Hle. }
  destruct (Z.div_eucl (Zpos mx * 2 ^ s) (Zpos my)) as [q r] eqn:Ediv.
  assert (Eq : q = (Zpos mx * 2 ^ s) / Zpos my) by (unfold Z.div; rewrite Ediv; reflexivity).
  assert (Er : r = (Zpos mx * 2 ^ s) mod Zpos my) by (unfold Z.modulo; rewrite Ediv; reflexivity).
  assert (Hq0 : 0 <= q) by (rewrite Eq; apply Z.div_pos; lia).
  assert (Hq1 : q <= 2 ^ (- e')).
  { rewrite Eq. apply Z.div_le_upper_bound; lia. }
  assert (Hex : q = 2 ^ (- e') -> Zpos mx * 2 ^ s = Zpos my * 2 ^ (- e')).
  { intros Hq. pose proof (Z.mul_div_le (Zpos mx * 2 ^ s) (Zpos my) ltac:(lia)) as Hmul.
    rewrite <- Eq, Hq in Hmul. lia. }
  assert (Hloc : q = 2 ^ (- e') -> new_location (Zpos my) r = loc_Exact).
  { intros Hq. rewrite Er, (Hex Hq), Z.mul_comm, Z.mod_mul by lia.
    apply new_location_exact. }
  assert (Heqv : (inject_Z (Zpos mx) * 2 ^ ex == inject_Z (Zpos my) * 2 ^ ey)%Q
                 <-> q = 2 ^ (- e')).
  { split.
    - intros HE.
      assert (Hmm : Zpos mx * 2 ^ s = Zpos my * 2 ^ (- e')).
      { apply (scale_eq _ _ (ey + e')).
        rewrite !inject_Z_mult, <- (pow2_inject s), <- (pow2_inject (- e')) by lia.
        rewrite <- !Qmult_assoc, <- !pow2_add.
        replace (s + (ey + e')) with ex by (subst s; lia).
        replace (- e' + (ey + e')) with ey by lia. exact HE. }
      rewrite Eq, Hmm, Z.mul_comm, Z.div_mul by lia. reflexivity.
    - intros Hq. pose proof (Hex Hq) as Hmm.
      apply (scale_eq _ _ (ey + e')) in Hmm.
      rewrite !inject_Z_mult, <- (pow2_inject s), <- (pow2_inject (- e')) in Hmm by lia.
      rewrite <- !Qmult_assoc, <- !pow2_add in Hmm.
      replace (s + (ey + e')) with ex in Hmm by (subst s; lia).
      replace (- e' + (ey + e')) with ey in Hmm by lia. exact Hmm. }
  pose proof (binary_round_aux_le_one q e' (new_location (Zpos my) r) Hq0 He' Hq1 Hloc) as Hr.
  destruct (binary_round_aux 24 128 false q e' (new_location (Z.pos my) r))
    as [sz|sz| |sz mz ez]; try contradiction.
  - destruct Hr as [-> Hne]. split; [reflexivity|]. rewrite Heqv. exact Hne.
  - destruct Hr as (-> & Hez & Hmz & Hone). split; [reflexivity|].
    unfold F2Q. cbn [cond_Zopp].
    split.
    + rewrite <- (pow2_cancel ez). rewrite (pow2_inject (- ez)) by lia.
      apply scale_le. exact Hmz.
    + intros HE. apply Heqv in HE. rewrite (Hone HE).
      rewrite <- (pow2_inject (- ez)) by lia. apply pow2_cancel.
Qed.

(** ** The order of floating-point values and reductions along an axis *)

Lemma Qle_bool_false (x y : Q) : Qle_bool x y = false -> (y < x)%Q.
Proof.
  intros H. apply Qnot_le_lt. intros Hle.
  apply Qle_bool_iff in Hle. congruence.
Qed.

Lemma Qle_bool_refl (x : Q) : Qle_bool x x = true.
Proof. apply Qle_bool_iff, Qle_refl. Qed.

Lemma np_leb_finite (a b : npfloat) :
  is_finite a -> is_finite b -> np_leb a b = Qle_bool (F2Q a) (F2Q b).
Proof.
  destruct a as [?|?| |? ? ?], b as [?|?| |? ? ?]; simpl; try contradiction; reflexivity.
Qed.

Lemma np_leb_refl (v : npfloat) : v <> NaN -> np_leb v v = true.
Proof.
  destruct v as [s|[|]| |s m e]; intros H; try congruence; try reflexivity;
    apply Qle_bool_refl.
Qed.

Lemma np_leb_trans (a b c : npfloat) :
  np_leb a b = true -> np_leb b c = true -> np_leb a c = true.
Proof.
  destruct a as [sa|[|]| |sa ma ea], b as [sb|[|]| |sb mb eb], c as [sc|[|]| |sc mc ec];
    cbn [np_leb]; intros H1 H2; try reflexivity; try discriminate;
    apply Qle_bool_iff in H1; apply Qle_bool_iff in H2; apply Qle_bool_iff; lra.
Qed.

Lemma np_leb_total (a b : npfloat) :
  a <> NaN -> b <> NaN -> np_leb a b = false -> np_leb b a = true.
Proof.
  destruct a as [sa|[|]| |sa ma ea], b as [sb|[|]| |sb mb eb];
    cbn [np_leb]; intros Ha Hb H; try reflexivity; try discriminate; try congruence;
    apply Qle_bool_false in H; apply Qle_bool_iff; lra.
Qed.

Lemma np_ltb_true_finite (a b : npfloat) :
  is_finite a -> is_finite b -> np_ltb a b = true -> (F2Q a <= F2Q b)%Q.
Proof.
  intros Ha Hb. unfold np_ltb. rewrite !np_leb_finite by assumption.
  intros H. apply andb_true_iff in H as [H _]. apply Qle_bool_iff. exact H.
Qed.

Lemma np_ltb_false_finite (a b : npfloat) :
  is_finite a -> is_finite b -> np_ltb a b = false -> (F2Q b <= F2Q a)%Q.
Proof.
  intros Ha Hb. unfold np_ltb. rewrite !np_leb_finite by assumption.
  intros H. apply andb_false_iff in H as [H | H].
  - apply Qle_bool_false in H. lra.
  - apply negb_false_iff in H. apply Qle_bool_iff. exact H.
Qed.

Lemma np_minimum_choice (a b : npfloat) : np_minimum a b = a \/ np_minimum a b = b.
Proof.
  unfold np_minimum.
  destruct a as [sa|sa| |sa ma ea], b as [sb|sb| |sb mb eb]; auto;
    match goal with |- context [if ?c then _ else _] => destruct c end; auto.
Qed.

Lemma np_maximum_choice (a b : npfloat) : np_maximum a b = a \/ np_maximum a b = b.
Proof.
  unfold np_maximum.
  destruct a as [sa|sa| |sa ma ea], b as [sb|sb| |sb mb eb]; auto;
    match goal with |- context [if ?c then _ else _] => destruct c end; auto.
Qed.

Lemma np_maximum_eq (a b : npfloat) :
  a <> NaN -> b <> NaN -> np_maximum a b = if np_leb b a then a else b.
Proof.
  unfold np_maximum. destruct a as [sa|sa| |sa ma ea], b as [sb|sb| |sb mb eb];
    intros Ha Hb; congruence.
Qed.

Lemma np_minimum_eq (a b : npfloat) :
  a <> NaN -> b <> NaN -> np_minimum a b = if np_ltb a b then a else b.
Proof.
  unfold np_minimum. destruct a as [sa|sa| |sa ma ea], b as [sb|sb| |sb mb eb];
    intros Ha Hb; congruence.
Qed.

Lemma np_maximum_nan_inv (a b : npfloat) :
  np_maximum a b <> NaN -> a <> NaN /\ b <> NaN.
Proof.
  unfold np_maximum. destruct a as [sa|sa| |sa ma ea], b as [sb|sb| |sb mb eb];
    intros H; split; congruence.
Qed.

Lemma np_maximum_upper (a b : npfloat) :
  np_maximum a b <> NaN ->
  a <> NaN /\ b <> NaN
  /\ np_leb a (np_maximum a b) = true /\ np_leb b (np_maximum a b) = true.
Proof.
  intros H. destruct (np_maximum_nan_inv a b H) as [Ha Hb].
  split; [exact Ha|]. split; [exact Hb|].
  rewrite np_maximum_eq by assumption.
  destruct (np_leb b a) eqn:E.
  - split; [apply np_leb_refl; exact Ha | exact E].
  - split; [apply np_leb_total; assumption | apply np_leb_refl; exact Hb].
Qed.

Lemma fold_maximum_upper (l : list npfloat) :
  forall v, fold_left np_maximum l v <> NaN ->
    v <> NaN /\ np_leb v (fold_left np_maximum l v) = true
    /\ forall x, x ∈ l -> np_leb x (fold_left np_maximum l v) = true.
Proof.
  induction l as [|y l IH]; intros v H; simpl in *.
  - split; [exact H|]. split; [apply np_leb_refl; exact H|].
    intros x Hx. inversion Hx.
  - destruct (IH _ H) as (Hn & Hle & Hall).
    destruct (np_maximum_upper v y Hn) as (Hv & Hy & Hv' & Hy').
    split; [exact Hv|]. split; [eapply np_leb_trans; eassumption|].
    intros x Hx. apply elem_of_cons in Hx as [-> | Hx].
    + eapply np_leb_trans; eassumption.
    + apply Hall. exact Hx.
Qed.

Lemma fold_minimum_finite (l : list npfloat) :
  Forall is_finite l ->
  forall v, is_finite v ->
    is_finite (fold_left np_minimum l v)
    /\ (F2Q (fold_left np_minimum l v) <= F2Q v)%Q
    /\ forall x, x ∈ l -> (F2Q (fold_left np_minimum l v) <= F2Q x)%Q.
Proof.
  induction 1 as [|y l Hy Hl IH]; intros v Hv; simpl.
  - split; [exact Hv|]. split; [apply Qle_refl|]. intros x Hx. inversion Hx.
  - assert (Hvn : v <> NaN) by (intros ->; exact Hv).
    assert (Hyn : y <> NaN) by (intros ->; exact Hy).
    rewrite np_minimum_eq by assumption.
    destruct (np_ltb v y) eqn:E.
    + apply np_ltb_true_finite in E; [|assumption..].
      destruct (IH v Hv) as (Hf & Hle & Hall).
      split; [exact Hf|]. split; [exact Hle|].
      intros x Hx. apply elem_of_cons in Hx as [-> | Hx]; [lra | auto].
    + apply np_ltb_false_finite in E; [|assumption..].
      destruct (IH y Hy) as (Hf & Hle & Hall).
      split; [exact Hf|]. split; [lra|].
      intros x Hx. apply elem_of_cons in Hx as [-> | Hx]; [exact Hle | auto].
Qed.

Lemma fold_left_choice (f : npfloat -> npfloat -> npfloat) :
  (forall a b, f a b = a \/ f a b = b) ->
  forall l v, fold_left f l v ∈ v :: l.
Proof.
  intros Hf l. induction l as [|x l IH]; intros v; simpl.
  - apply list_elem_of_here.
  - specialize (IH (f v x)).
    apply elem_of_cons in IH as [IH | IH].
    + rewrite IH. destruct (Hf v x) as [-> | ->].
      * apply list_elem_of_here.
      * apply list_elem_of_further, list_elem_of_here.
    + do 2 apply list_elem_of_further. exact IH.
Qed.

Lemma fold_maximum_finite (l : list npfloat) :
  Forall is_finite l ->
  forall v, is_finite v ->
    is_finite (fold_left np_maximum l v)
    /\ (F2Q v <= F2Q (fold_left np_maximum l v))%Q
    /\ forall x, x ∈ l -> (F2Q x <= F2Q (fold_left np_maximum l v))%Q.
Proof.
  induction 1 as [|y l Hy Hl IH]; intros v Hv; simpl.
  - split; [exact Hv|]. split; [apply Qle_refl|]. intros x Hx. inversion Hx.
  - assert (Hvn : v <> NaN) by (intros ->; exact Hv).
    assert (Hyn : y <> NaN) by (intros ->; exact Hy).
    rewrite np_maximum_eq by assumption.
    rewrite np_leb_finite by assumption.
    destruct (Qle_bool (F2Q y) (F2Q v)) eqn:E.
    + apply Qle_bool_iff in E.
      destruct (IH v Hv) as (Hf & Hle & Hall).
      split; [exact Hf|]. split; [exact Hle|].
      intros x Hx. apply elem_of_cons in Hx as [-> | Hx]; [lra | auto].
    + apply Qle_bool_false in E.
      destruct (IH y Hy) as (Hf & Hle & Hall).
      split; [exact Hf|]. split; [lra|].
      intros x Hx. apply elem_of_cons in Hx as [-> | Hx]; [exact Hle | auto].
Qed.

(** The minimum of a non-empty column of numbers is one of its entries and a
    lower bound of all of them. *)
Lemma reduce_minimum_finite (l : list npfloat) :
  l <> [] -> Forall is_finite l ->
  exists m, reduce_axis "minimum" np_minimum l = inr m
    /\ m ∈ l /\ is_finite m /\ (forall x, x ∈ l -> (F2Q m <= F2Q x)%Q).
Proof.
  intros Hne Hfin. destruct l as [|v l]; [congruence|].
  inversion Hfin as [|? ? Hv Hl]; subst.
  destruct (fold_minimum_finite l Hl v Hv) as (Hf & Hle & Hall).
  eexists. split; [reflexivity|]. split; [|split].
  - apply fold_left_choice, np_minimum_choice.
  - exact Hf.
  - intros x Hx. apply elem_of_cons in Hx as [-> | Hx]; auto.
Qed.

Lemma reduce_maximum_finite (l : list npfloat) :
  l <> [] -> Forall is_finite l ->
  exists m, reduce_axis "maximum" np_maximum l = inr m
    /\ m ∈ l /\ is_finite m /\ (forall x, x ∈ l -> (F2Q x <= F2Q m)%Q).
Proof.
  intros Hne Hfin. destruct l as [|v l]; [congruence|].
  inversion Hfin as [|? ? Hv Hl]; subst.
  destruct (fold_maximum_finite l Hl v Hv) as (Hf & Hle & Hall).
  eexists. split; [reflexivity|]. split; [|split].
  - apply fold_left_choice, np_maximum_choice.
  - exact Hf.
  - intros x Hx. apply elem_of_cons in Hx as [-> | Hx]; auto.
Qed.

(** A maximum that is a number bounds every entry of the column, whatever
    the entries are. *)
Lemma reduce_maximum_upper (l : list npfloat) (h : npfloat) :
  reduce_axis "maximum" np_maximum l = inr h -> h <> NaN ->
  h ∈ l /\ forall x, x ∈ l -> np_leb x h = true.
Proof.
  destruct l as [|v l]; [discriminate|]. simpl. intros H Hn. inversion H as [E].
  subst h. split.
  - apply fold_left_choice, np_maximum_choice.
  - destruct (fold_maximum_upper l v Hn) as (_ & Hv & Hall).
    intros x Hx. apply elem_of_cons in Hx as [-> | Hx]; auto.
Qed.

(** ** Min-max normalisation of one column *)

Lemma elem_of_map_iff {A B} (f : A -> B) (l : list A) (y : B) :
  y ∈ map f l <-> exists x, f x = y /\ x ∈ l.
Proof.
  rewrite list_elem_of_In, in_map_iff.
  split; intros (x & Hx & Hin); exists x; split; auto; apply list_elem_of_In; auto.
Qed.

Lemma np_div_zero_zero (a h : npfloat) : is_zero a -> is_zero h -> np_div a h = NaN.
Proof. destruct a, h; simpl; try contradiction; reflexivity. Qed.

Lemma is_zero_num (v : npfloat) : is_zero v -> is_num 0 v.
Proof. destruct v; simpl; try contradiction. intros _. split; [exact I | reflexivity]. Qed.

(** A non-negative dividend that is at most the positive divisor. *)
Lemma np_div_unit (a : npfloat) (mh : positive) (eh : Z) :
  not_negative a -> np_leb a (S754_finite false mh eh) = true ->
  in_unit (np_div a (S754_finite false mh eh))
  /\ (is_zero a -> is_num 0 (np_div a (S754_finite false mh eh))).
Proof.
  intros Hpos Hle.
  destruct a as [s|[|]| |[|] ma ea]; cbn [not_negative np_leb] in *;
    try contradiction; try discriminate.
  - split; [|intros _]; (split; [exact I|]); simpl; lra.
  - apply Qle_bool_iff in Hle.
    pose proof (np_div_le_one ma mh ea eh Hle) as H.
    split; [|intros []].
    destruct (np_div _ _) as [s|s| |s m e]; try contradiction.
    + split; [exact I|]. simpl. lra.
    + destruct H as (-> & H1 & _). split; [exact I|].
      pose proof (F2Q_finite_pos m e). lra.
Qed.

Lemma np_div_self (mh : positive) (eh : Z) :
  is_num 1 (np_div (S754_finite false mh eh) (S754_finite false mh eh)).
Proof.
  pose proof (np_div_le_one mh mh eh eh (Qle_refl _)) as H.
  destruct (np_div _ _) as [s|s| |s m e]; try contradiction.
  - destruct H as [_ H]. exfalso. apply H. reflexivity.
  - destruct H as (_ & _ & H). split; [exact I|]. apply H. reflexivity.
Qed.

Lemma positive_number (h : npfloat) :
  is_finite h -> ~ is_zero h -> not_negative h ->
  exists m e, h = S754_finite false m e.
Proof.
  destruct h as [s|s| |[|] m e]; simpl; intros Hf Hz Hn; try contradiction;
    try (exfalso; apply Hz; exact I); eauto.
Qed.

(** A column of numbers whose divisor is a number other than zero is mapped
    into [0, 1], its minimum to 0 and its maximum to 1. *)
Lemma normalise_column_spread (l : list npfloat) :
  spread l ->
  exists lo hi,
    reduce_axis "minimum" np_minimum l = inr lo /\
    reduce_axis "maximum" np_maximum (shift_column lo l) = inr hi /\
    let r := scale_column hi (shift_column lo l) in
    Forall in_unit r /\ (exists v, v ∈ r /\ is_num 0 v) /\ (exists v, v ∈ r /\ is_num 1 v).
Proof.
  intros [Hfin (h & Hdiv & Hh & Hnz)].
  assert (Hne : l <> []) by (intros ->; discriminate).
  destruct (reduce_minimum_finite l Hne Hfin) as (lo & Hlo & Hlo_in & Hlo_fin & Hlo_le).
  unfold divisor in Hdiv. rewrite Hlo in Hdiv.
  assert (Hhn : h <> NaN) by (intros ->; exact Hh).
  destruct (reduce_maximum_upper _ h Hdiv Hhn) as (Hh_in & Hh_up).
  assert (Hshift : forall a, a ∈ shift_column lo l -> not_negative a).
  { intros a Ha. apply elem_of_map_iff in Ha as (x & <- & Hx).
    rewrite Forall_forall in Hfin.
    apply np_sub_not_negative; auto. }
  destruct (positive_number h Hh Hnz (Hshift h Hh_in)) as (mh & eh & ->).
  exists lo, (S754_finite false mh eh). split; [exact Hlo|]. split; [exact Hdiv|].
  cbv zeta. split; [|split].
  - apply Forall_forall. intros v Hv.
    apply elem_of_map_iff in Hv as (a & <- & Ha).
    apply np_div_unit; auto.
  - exists (np_div (np_sub lo lo) (S754_finite false mh eh)). split.
    + apply elem_of_map_iff. eexists. split; [reflexivity|].
      apply elem_of_map_iff. exists lo. split; [reflexivity | exact Hlo_in].
    + apply np_div_unit.
      * apply Hshift. apply elem_of_map_iff. exists lo. split; [reflexivity | exact Hlo_in].
      * apply Hh_up. apply elem_of_map_iff. exists lo. split; [reflexivity | exact Hlo_in].
      * apply np_sub_equal; auto. reflexivity.
  - exists (np_div (S754_finite false mh eh) (S754_finite false mh eh)). split.
    + apply elem_of_map_iff. eexists. split; [reflexivity | exact Hh_in].
    + apply np_div_self.
Qed.

Lemma is_num_finite (c : Q) (l : list npfloat) : Forall (is_num c) l -> Forall is_finite l.
Proof. intros H. eapply Forall_impl; [exact H|]. intros v [Hv _]. exact Hv. Qed.

(** A constant column is shifted to zeros; the divisor is zero and every
    entry becomes nan. *)
Lemma normalise_column_constant (c : Q) (l : list npfloat) :
  constant c l ->
  exists lo hi,
    reduce_axis "minimum" np_minimum l = inr lo /\
    reduce_axis "maximum" np_maximum (shift_column lo l) = inr hi /\
    is_num 0 hi /\
    Forall (fun v => v = NaN) (scale_column hi (shift_column lo l)).
Proof.
  intros [Hne Hc].
  pose proof (is_num_finite c l Hc) as Hfin.
  destruct (reduce_minimum_finite l Hne Hfin) as (lo & Hlo & Hlo_in & Hlo_fin & _).
  assert (Hzero : forall a, a ∈ shift_column lo l -> is_zero a).
  { intros a Ha. apply elem_of_map_iff in Ha as (x & <- & Hx).
    rewrite Forall_forall in Hc.
    destruct (Hc x Hx) as [Hxf Ex]. destruct (Hc lo Hlo_in) as [_ El].
    apply np_sub_equal; auto. rewrite Ex, El. reflexivity. }
  destruct (shift_column lo l) as [|s0 rest] eqn:Es.
  { destruct l; [congruence | discriminate]. }
  exists lo, (fold_left np_maximum rest s0).
  assert (Hhi : fold_left np_maximum rest s0 ∈ s0 :: rest)
    by apply fold_left_choice, np_maximum_choice.
  rewrite Es. split; [exact Hlo|]. split; [reflexivity|]. split.
  - apply is_zero_num, Hzero, Hhi.
  - apply Forall_forall. intros v Hv.
    apply elem_of_map_iff in Hv as (a & <- & Ha).
    apply np_div_zero_zero; auto.
Qed.

Lemma in_unit_finite (l : list npfloat) : Forall in_unit l -> Forall is_finite l.
Proof. intros H. eapply Forall_impl; [exact H|]. intros v [Hv _]. exact Hv. Qed.

(** In a column within [0, 1] that holds a 0 the minimum is 0, and in one
    that holds a 1 the maximum is 1. *)
Lemma unit_column_extrema (l : list npfloat) :
  Forall in_unit l ->
  (exists v, v ∈ l /\ is_num 0 v) -> (exists v, v ∈ l /\ is_num 1 v) ->
  exists lo hi,
    reduce_axis "minimum" np_minimum l = inr lo /\ is_num 0 lo /\
    reduce_axis "maximum" np_maximum l = inr hi /\ is_num 1 hi.
Proof.
  intros Hunit (v0 & Hv0 & _ & Hz) (v1 & Hv1 & _ & Ho).
  assert (Hne : l <> []) by (intros ->; inversion Hv0).
  pose proof (in_unit_finite l Hunit) as Hfin.
  destruct (reduce_minimum_finite l Hne Hfin) as (lo & Hlo & Hlo_in & Hlo_fin & Hlo_le).
  destruct (reduce_maximum_finite l Hne Hfin) as (hi & Hhi & Hhi_in & Hhi_fin & Hhi_ge).
  rewrite Forall_forall in Hunit.
  destruct (Hunit _ Hlo_in) as (_ & Hl0 & _). destruct (Hunit _ Hhi_in) as (_ & _ & Hh1).
  specialize (Hlo_le v0 Hv0). specialize (Hhi_ge v1 Hv1).
  exists lo, hi. split; [exact Hlo|]. split; [split; [exact Hlo_fin | lra]|].
  split; [exact Hhi|]. split; [exact Hhi_fin | lra].
Qed.

Lemma np_minimum_nan_l v : np_minimum NaN v = NaN.
Proof. reflexivity. Qed.

Lemma np_minimum_nan_r v : np_minimum v NaN = NaN.
Proof. destruct v; reflexivity. Qed.

Lemma np_sub_nan_r v : np_sub v NaN = NaN.
Proof. destruct v; reflexivity. Qed.

Lemma np_div_nan_l v : np_div NaN v = NaN.
Proof. reflexivity. Qed.

(** ** Min-max normalisation of the (n, 3) array *)

Lemma coord_broadcast (a : axis) f (m p : point3) :
  coord a (broadcast f m p) = f (coord a p) (coord a m).
Proof. destruct a; reflexivity. Qed.

Lemma column_broadcast (a : axis) f (m : point3) (X : list point3) :
  column a (map (broadcast f m) X) = map (fun v => f v (coord a m)) (column a X).
Proof.
  unfold column. rewrite !map_map. apply map_ext. intros p. apply coord_broadcast.
Qed.

Lemma column_length (a : axis) (X : list point3) : length (column a X) = length X.
Proof. apply length_map. Qed.

Lemma reduce_axis_nonempty name f (l : list npfloat) :
  l <> [] -> exists r, reduce_axis name f l = inr r.
Proof. destruct l; [congruence | eexists; reflexivity]. Qed.

Lemma reduce_axis0_nonempty name f (X : list point3) :
  X <> [] ->
  exists r, reduce_axis0 name f X = inr r
    /\ forall a, reduce_axis name f (column a X) = inr (coord a r).
Proof.
  intros Hne. destruct X as [|p X]; [congruence|].
  unfold reduce_axis0. simpl. eexists. split; [reflexivity|].
  intros []; reflexivity.
Qed.

Lemma reduce_axis0_empty name f :
  exists msg, reduce_axis0 name f [] = inl (ValueError msg).
Proof. eexists. reflexivity. Qed.

(** On a non-empty array the normalisation returns, and acts on each column
    on its own. *)
Lemma normalise_columns (X : list point3) :
  X <> [] ->
  exists lo hi,
    normalise X = inr (map (broadcast np_div hi) (map (broadcast np_sub lo) X)) /\
    forall a,
      reduce_axis "minimum" np_minimum (column a X) = inr (coord a lo) /\
      reduce_axis "maximum" np_maximum (shift_column (coord a lo) (column a X))
        = inr (coord a hi) /\
      column a (map (broadcast np_div hi) (map (broadcast np_sub lo) X))
        = scale_column (coord a hi) (shift_column (coord a lo) (column a X)).
Proof.
  intros Hne.
  destruct (reduce_axis0_nonempty "minimum" np_minimum X Hne) as (lo & Hlo & Hlo_a).
  assert (Hne' : map (broadcast np_sub lo) X <> []).
  { destruct X; [congruence | discriminate]. }
  destruct (reduce_axis0_nonempty "maximum" np_maximum _ Hne') as (hi & Hhi & Hhi_a).
  exists lo, hi. split.
  - unfold normalise, np_min_axis0, np_max_axis0. rewrite Hlo. cbv zeta. rewrite Hhi.
    reflexivity.
  - intros a. split; [apply Hlo_a|]. split.
    + specialize (Hhi_a a). rewrite column_broadcast in Hhi_a. exact Hhi_a.
    + rewrite !column_broadcast. reflexivity.
Qed.

Lemma normalise_length (X X' : list point3) :
  normalise X = inr X' -> length X' = length X.
Proof.
  unfold normalise. destruct (np_min_axis0 X); [discriminate|].
  cbv zeta. destruct (np_max_axis0 _); [discriminate|].
  intros H. inversion H. rewrite !length_map. reflexivity.
Qed.

Lemma normalise_empty : exists msg, normalise [] = inl (ValueError msg).
Proof. eexists. reflexivity. Qed.

(** ** Running the methods *)

Section Runs.
Context {R : Type} `{L : Libraries R}.

Lemma generate_tsne_run (self : TSNECaption3DScatter) (w : world R) :
  _generate_tsne self w =
    match tsne_fit_transform (tsne_of self) (plotted_rows self) (rng w) with
    | (inl e, g) => (inl e, after_fit_transform self w g)
    | (inr pts, g) => (normalise pts, after_fit_transform self w g)
    end.
Proof.
  unfold _generate_tsne, bind, fit_transform, lift, ret, normalise,
    after_fit_transform, tsne_of, plotted_rows.
  destruct (tsne_fit_transform _ _ (rng w)) as [[e|pts] g]; [reflexivity|].
  destruct (np_min_axis0 pts) as [e|lo]; [reflexivity|].
  destruct (np_max_axis0 _) as [e|hi]; reflexivity.
Qed.

End Runs.

(** ** The constructor *)

(** What a successful construction says about its arguments. *)
Lemma init_inr fs acts texts d name dir p it cs os q self :
  __init__ fs acts texts d name dir p it cs os q = inr self ->
  self = mkSelf acts texts d name dir p it cs os q (np_square d)
  /\ d <> 1 /\ is_Some (fs !! dir).
Proof.
  unfold __init__. cbn [output_dimension output_directory].
  destruct (d =? 1) eqn:Ed; [discriminate|].
  apply Z.eqb_neq in Ed.
  unfold os_path_exists. case_bool_decide as Hdir; cbn [negb]; [|discriminate].
  intros H. inversion H. auto.
Qed.

Lemma init_accepts fs acts texts d name dir p it cs os q :
  d <> 1 -> is_Some (fs !! dir) ->
  __init__ fs acts texts d name dir p it cs os q
    = inr (mkSelf acts texts d name dir p it cs os q (np_square d)).
Proof.
  intros Hd Hdir. unfold __init__. cbn [output_dimension output_directory].
  apply Z.eqb_neq in Hd. rewrite Hd.
  unfold os_path_exists. rewrite bool_decide_eq_true_2 by exact Hdir.
  reflexivity.
Qed.

(** C3: a grid dimension of 1 is rejected with a [ValueError], whatever the
    other arguments and the file system are. *)
Theorem init_rejects_dimension_one fs acts texts name dir p it cs os q :
  exists e, __init__ fs acts texts 1 name dir p it cs os q = inl e
    /\ is_ValueError e = true
    /\ e = ValueError "Output scatter dimension 1x1 not supported.".
Proof. eexists. repeat split; reflexivity. Qed.

(** C4: when nothing exists at the output directory's path the constructor
    raises a [ValueError]; when a directory exists there the directory check
    raises nothing, and the construction succeeds unless the grid dimension
    is 1. *)
Theorem init_directory_check fs acts texts d name dir p it cs os q :
  (fs !! dir = None ->
     exists e, __init__ fs acts texts d name dir p it cs os q = inl e
       /\ is_ValueError e = true) /\
  (fs !! dir = Some Dir -> d <> 1 ->
     exists self, __init__ fs acts texts d name dir p it cs os q = inr self
       /\ output_directory self = dir).
Proof.
  split.
  - intros Hnone. unfold __init__. cbn [output_dimension output_directory].
    destruct (d =? 1); [eexists; split; reflexivity|].
    unfold os_path_exists. rewrite bool_decide_eq_false_2.
    + eexists; split; reflexivity.
    + rewrite Hnone. intros [x Hx]. discriminate.
  - intros Hdir Hd. eexists. split.
    + apply init_accepts; [exact Hd | rewrite Hdir; eauto].
    + reflexivity.
Qed.

(** X13: the check is [os.path.exists]: a regular file at the path of the output
    directory passes it as well. *)
Lemma init_accepts_regular_file fs acts texts d name dir p it cs os q content :
  d <> 1 -> fs !! dir = Some (File content) ->
  exists self, __init__ fs acts texts d name dir p it cs os q = inr self.
Proof.
  intros Hd Hfile. eexists. apply init_accepts; [exact Hd | rewrite Hfile; eauto].
Qed.

(** C10, amended: zero and every negative grid dimension pass the
    constructor when the output directory exists; the total point count is
    [np.square] of the dimension, which is its square as long as that square
    is below 2^63. *)
Theorem init_accepts_nonpositive fs acts texts d name dir p it cs os q :
  d <= 0 -> is_Some (fs !! dir) ->
  exists self, __init__ fs acts texts d name dir p it cs os q = inr self
    /\ output_dimension self = d
    /\ to_plot self = np_square d
    /\ (- 3037000499 <= d -> to_plot self = d * d).
Proof.
  intros Hd Hdir. eexists. split; [apply init_accepts; [lia | exact Hdir]|].
  cbn [output_dimension to_plot]. repeat split.
  intros Hlo. apply np_square_exact. nia.
Qed.

(** ** The embedding step *)

Lemma normalise_spread (pts : list point3) :
  (forall a, spread (column a pts)) ->
  exists X, normalise pts = inr X
    /\ length X = length pts
    /\ (forall a, Forall in_unit (column a X))
    /\ exists lo hi, np_min_axis0 X = inr lo /\ np_max_axis0 X = inr hi
         /\ forall a, is_num 0 (coord a lo) /\ is_num 1 (coord a hi).
Proof.
  intros Hspread.
  assert (Hne : pts <> []).
  { destruct (Hspread AX) as [_ (h & Hh & _)]. intros ->. discriminate. }
  destruct (normalise_columns pts Hne) as (lo & hi & Hnorm & Hcols).
  set (X := map (broadcast np_div hi) (map (broadcast np_sub lo) pts)) in *.
  assert (Hcol : forall a,
    Forall in_unit (column a X)
    /\ (exists v, v ∈ column a X /\ is_num 0 v)
    /\ (exists v, v ∈ column a X /\ is_num 1 v)).
  { intros a. destruct (Hcols a) as (Hlo & Hhi & Hcol).
    destruct (normalise_column_spread _ (Hspread a)) as (lo' & hi' & Hlo' & Hhi' & Hr).
    rewrite Hlo in Hlo'. injection Hlo' as Elo. rewrite Elo in Hhi.
    rewrite Hhi in Hhi'. injection Hhi' as Ehi.
    rewrite Hcol, Elo, Ehi. exact Hr. }
  assert (HneX : X <> []).
  { subst X. destruct pts; [congruence | discriminate]. }
  exists X. split; [exact Hnorm|]. split; [subst X; rewrite !length_map; reflexivity|].
  split; [intros a; apply Hcol|].
  destruct (reduce_axis0_nonempty "minimum" np_minimum X HneX) as (lo1 & Hlo1 & Hlo1_a).
  destruct (reduce_axis0_nonempty "maximum" np_maximum X HneX) as (hi1 & Hhi1 & Hhi1_a).
  exists lo1, hi1. split; [exact Hlo1|]. split; [exact Hhi1|].
  intros a. destruct (Hcol a) as (Hu & H0 & H1).
  destruct (unit_column_extrema _ Hu H0 H1) as (l0 & h1 & Hl0 & El0 & Hh1 & Eh1).
  rewrite Hlo1_a in Hl0. rewrite Hhi1_a in Hh1.
  injection Hl0 as E0. injection Hh1 as E1. rewrite E0, E1. auto.
Qed.

Lemma normalise_constant (a : axis) (c : Q) (pts : list point3) :
  constant c (column a pts) ->
  exists lo hi X,
    np_min_axis0 pts = inr lo /\
    np_max_axis0 (map (broadcast np_sub lo) pts) = inr hi /\
    is_num 0 (coord a hi) /\
    normalise pts = inr X /\
    X = map (broadcast np_div hi) (map (broadcast np_sub lo) pts) /\
    length X = length pts /\
    Forall (fun p => coord a p = NaN) X.
Proof.
  intros Hc.
  assert (Hne : pts <> []).
  { destruct Hc as [Hne _]. intros ->. apply Hne. reflexivity. }
  destruct (reduce_axis0_nonempty "minimum" np_minimum pts Hne) as (lo & Hlo & Hlo_a).
  assert (Hne' : map (broadcast np_sub lo) pts <> []).
  { destruct pts; [congruence | discriminate]. }
  destruct (reduce_axis0_nonempty "maximum" np_maximum _ Hne') as (hi & Hhi & Hhi_a).
  destruct (normalise_column_constant c _ Hc) as (lo' & hi' & Hlo' & Hhi' & Ezero & Hnan).
  pose proof (Hlo_a a) as Ha. rewrite Hlo' in Ha. injection Ha as Elo.
  pose proof (Hhi_a a) as Hb. rewrite column_broadcast in Hb.
  fold (shift_column (coord a lo) (column a pts)) in Hb.
  rewrite <- Elo, Hhi' in Hb. injection Hb as Ehi.
  exists lo, hi, (map (broadcast np_div hi) (map (broadcast np_sub lo) pts)).
  split; [exact Hlo|]. split; [exact Hhi|]. split; [rewrite <- Ehi; exact Ezero|].
  split.
  { unfold normalise. fold np_min_axis0 in Hlo. rewrite Hlo. cbv zeta.
    fold np_max_axis0 in Hhi. rewrite Hhi. reflexivity. }
  split; [reflexivity|]. split; [rewrite !length_map; reflexivity|].
  apply Forall_forall. intros p' Hp'.
  assert (Hin : coord a p' ∈ scale_column hi' (shift_column lo' (column a pts))).
  { rewrite Elo, Ehi. unfold scale_column, shift_column.
    rewrite <- !column_broadcast. unfold column. apply elem_of_map_iff. eauto. }
  rewrite Forall_forall in Hnan. exact (Hnan _ Hin).
Qed.

Section Embedding.
Context {R : Type} `{L : Libraries R}.

Lemma plotted_rows_firstn fs acts texts d name dir p it cs os q self :
  __init__ fs acts texts d name dir p it cs os q = inr self ->
  d * d <= Z.of_nat (length acts) -> ndarray_rows acts ->
  tsne_of self = mkTSNE p 3 "pca" it
  /\ plotted_rows self = firstn (Z.to_nat (d * d)) acts
  /\ length (plotted_rows self) = Z.to_nat (d * d).
Proof.
  intros Hinit Hrows Hfit. apply init_inr in Hinit as (-> & _ & _).
  unfold tsne_of, plotted_rows, ndarray_rows in *. cbn [perplexity iterations to_plot activations].
  rewrite np_square_exact by lia.
  split; [reflexivity|]. split.
  - apply slice_to_firstn. nia.
  - apply slice_to_length. nia.
Qed.

(** C6: on an activation matrix with at least grid_dimension² rows,
    [_generate_tsne] is the t-SNE reduction of the first grid_dimension² rows
    of the matrix, in their order, by a [TSNE] of 3 components, PCA
    initialisation and the configured perplexity and iteration count: an
    exception of the reduction is the exception of [_generate_tsne], a result
    is handed to the normalisation, and in both cases the generator state is
    the one the reduction left and the trace gains this one call. *)
Theorem generate_tsne_input fs0 acts texts d name dir p it cs os q self (w : world R) :
  __init__ fs0 acts texts d name dir p it cs os q = inr self ->
  d * d <= Z.of_nat (length acts) -> ndarray_rows acts ->
  Z.of_nat (length (firstn (Z.to_nat (d * d)) acts)) = d * d
  /\ _generate_tsne self w =
       match tsne_fit_transform (mkTSNE p 3 "pca" it)
               (firstn (Z.to_nat (d * d)) acts) (rng w) with
       | (inl e, g) =>
           (inl e,
            mkWorld (fs w) g
              (calls w ++ [CallFitTransform (mkTSNE p 3 "pca" it)
                             (firstn (Z.to_nat (d * d)) acts)])%list)
       | (inr pts, g) =>
           (normalise pts,
            mkWorld (fs w) g
              (calls w ++ [CallFitTransform (mkTSNE p 3 "pca" it)
                             (firstn (Z.to_nat (d * d)) acts)])%list)
       end.
Proof.
  intros Hinit Hrows Hfit.
  destruct (plotted_rows_firstn _ _ _ _ _ _ _ _ _ _ _ _ Hinit Hrows Hfit) as (Ht & Hp & Hn).
  split.
  - rewrite <- Hp, Hn. nia.
  - rewrite generate_tsne_run. unfold after_fit_transform. rewrite Ht, Hp. reflexivity.
Qed.

(** C1, amended: for a configuration that passes construction and an
    activation matrix (a numpy array) with at least grid_dimension² rows,
    when the t-SNE step returns one point per row, all coordinates are
    numbers and on every axis the divisor of the normalisation (the largest
    difference to the minimum of the axis, as computed in float32) is a
    number other than zero, [_generate_tsne] returns grid_dimension² points
    whose coordinates lie in [0, 1], with minimum 0 and maximum 1 on each
    axis. *)
Theorem generate_tsne_normalised fs acts texts d name dir p it cs os q self
    (w : world R) pts g :
  __init__ fs acts texts d name dir p it cs os q = inr self ->
  d * d <= Z.of_nat (length acts) -> ndarray_rows acts ->
  tsne_fit_transform (mkTSNE p 3 "pca" it) (firstn (Z.to_nat (d * d)) acts) (rng w)
    = (inr pts, g) ->
  length pts = length (firstn (Z.to_nat (d * d)) acts) ->
  (forall a, spread (column a pts)) ->
  exists X w', _generate_tsne self w = (inr X, w') /\ embedding_normalised d X.
Proof.
  intros Hinit Hrows Hfit Htsne Hlen Hspread.
  destruct (plotted_rows_firstn _ _ _ _ _ _ _ _ _ _ _ _ Hinit Hrows Hfit) as (Ht & Hp & Hn).
  destruct (normalise_spread pts Hspread) as (X & HX & HlenX & Hunit & Hext).
  exists X, (after_fit_transform self w g). split.
  - rewrite generate_tsne_run, Ht, Hp, Htsne. rewrite HX. reflexivity.
  - split; [|split].
    + rewrite HlenX, Hlen, <- Hp, Hn. unfold ndarray_rows in Hfit. nia.
    + exact Hunit.
    + intros _. exact Hext.
Qed.

(** C9: the division has no guard against a zero divisor.  When the t-SNE
    step returns points whose coordinate on some axis is one and the same
    number, the maximum of the shifted axis is 0 and [_generate_tsne]
    returns points whose coordinate on that axis is nan, hence outside
    [0, 1]. *)
Theorem generate_tsne_constant_axis_nan (self : TSNECaption3DScatter) (w : world R)
    pts g (a : axis) (c : Q) :
  tsne_fit_transform (tsne_of self) (plotted_rows self) (rng w) = (inr pts, g) ->
  constant c (column a pts) ->
  exists lo hi X w',
    np_min_axis0 pts = inr lo /\
    np_max_axis0 (map (broadcast np_sub lo) pts) = inr hi /\
    is_num 0 (coord a hi) /\
    _generate_tsne self w = (inr X, w') /\
    X = map (broadcast np_div hi) (map (broadcast np_sub lo) pts) /\
    length X = length pts /\
    Forall (fun p => coord a p = NaN /\ ~ in_unit (coord a p)) X.
Proof.
  intros Htsne Hc.
  destruct (normalise_constant a c pts Hc) as (lo & hi & X & Hlo & Hhi & Hz & HX & EX & Hlen & Hnan).
  exists lo, hi, X, (after_fit_transform self w g).
  split; [exact Hlo|]. split; [exact Hhi|]. split; [exact Hz|]. split.
  - rewrite generate_tsne_run, Htsne, HX. reflexivity.
  - split; [exact EX|]. split; [exact Hlen|].
    eapply Forall_impl; [exact Hnan|].
    intros p' Hp'. split; [exact Hp'|]. rewrite Hp'. intros [[] _].
Qed.

End Embedding.

(** ** Drawing *)

Lemma split_columns_acc (X : list point3) (x y z : list npfloat) :
  fold_left (fun '(x, y, z) value =>
               ((x ++ [coord AX value])%list,
                (y ++ [coord AY value])%list,
                (z ++ [coord AZ value])%list)) X (x, y, z)
  = ((x ++ column AX X)%list, (y ++ column AY X)%list, (z ++ column AZ X)%list).
Proof.
  revert x y z. induction X as [|p X IH]; intros x y z; simpl.
  - rewrite !app_nil_r. reflexivity.
  - rewrite IH. rewrite <- !app_assoc. reflexivity.
Qed.

Lemma split_columns_spec (X : list point3) :
  split_columns X = (column AX X, column AY X, column AZ X).
Proof. unfold split_columns. apply split_columns_acc. Qed.

Lemma getitem_column (a : axis) (X : list point3) (i : nat) (p : point3) :
  X !! i = Some p -> getitem (column a X) i = inr (coord a p).
Proof.
  intros Hp. unfold getitem, column.
  change (map (coord a) X) with (coord a <$> X).
  rewrite list_lookup_fmap, Hp. reflexivity.
Qed.

Lemma draw_point_ok self (X : list point3) texts i p t ax :
  X !! i = Some p -> texts !! i = Some t ->
  draw_point self (column AX X) (column AY X) (column AZ X) texts i ax
    = inr (ax ++ caption_artists self p t)%list.
Proof.
  intros Hp Ht. unfold draw_point.
  rewrite !(getitem_column _ _ _ _ Hp). unfold getitem. rewrite Ht.
  unfold caption_artists. rewrite <- app_assoc. reflexivity.
Qed.

Lemma draw_point_no_caption self (X : list point3) texts i p ax :
  X !! i = Some p -> texts !! i = None ->
  draw_point self (column AX X) (column AY X) (column AZ X) texts i ax
    = inl (IndexError "list index out of range").
Proof.
  intros Hp Ht. unfold draw_point.
  rewrite !(getitem_column _ _ _ _ Hp). unfold getitem. rewrite Ht. reflexivity.
Qed.

Lemma for_range_draw self (X : list point3) texts (n : nat) :
  forall k ax, (k + n = length X)%nat -> (length X <= length texts)%nat ->
  for_range (draw_point self (column AX X) (column AY X) (column AZ X) texts) (seq k n) ax
    = inr (ax ++ drawn self (drop k X) (drop k texts))%list.
Proof.
  induction n as [|n IH]; intros k ax Hk Hlen; simpl.
  - rewrite drop_ge by lia. simpl. rewrite app_nil_r. reflexivity.
  - destruct (lookup_lt_is_Some_2 X k) as [p Hp]; [lia|].
    destruct (lookup_lt_is_Some_2 texts k) as [t Ht]; [lia|].
    rewrite (draw_point_ok _ _ _ _ _ _ _ Hp Ht).
    rewrite IH by lia.
    rewrite (drop_S _ _ _ Hp), (drop_S _ _ _ Ht). simpl.
    rewrite <- app_assoc. reflexivity.
Qed.

Lemma for_range_index_error self (X : list point3) texts (n : nat) :
  forall k ax, (k + n = length X)%nat -> (k <= length texts < length X)%nat ->
  for_range (draw_point self (column AX X) (column AY X) (column AZ X) texts) (seq k n) ax
    = inl (IndexError "list index out of range").
Proof.
  induction n as [|n IH]; intros k ax Hk Hlen; simpl.
  - lia.
  - destruct (lookup_lt_is_Some_2 X k) as [p Hp]; [lia|].
    destruct (texts !! k) as [t|] eqn:Ht.
    + rewrite (draw_point_ok _ _ _ _ _ _ _ Hp Ht).
      apply lookup_lt_Some in Ht. apply IH; lia.
    + rewrite (draw_point_no_caption _ _ _ _ _ _ Hp Ht). reflexivity.
Qed.

(** The loop draws every point with its caption, or stops with an
    [IndexError] when the captions run out. *)
Lemma draw_all_spec self (X : list point3) texts :
  ((length X <= length texts)%nat /\ draw_all self X texts = inr (drawn self X texts))
  \/ ((length texts < length X)%nat
      /\ draw_all self X texts = inl (IndexError "list index out of range")).
Proof.
  unfold draw_all. destruct (le_lt_dec (length X) (length texts)) as [Hle|Hlt].
  - left. split; [exact Hle|]. rewrite for_range_draw by (auto with lia). reflexivity.
  - right. split; [exact Hlt|]. apply for_range_index_error; lia.
Qed.

Lemma drawn_length self (X : list point3) : forall texts,
  (length X <= length texts)%nat -> length (drawn self X texts) = (2 * length X)%nat.
Proof.
  induction X as [|p X IH]; intros [|t texts] Hlen; simpl in *; try lia.
  rewrite IH by lia. lia.
Qed.

Lemma drawn_lookup self (X : list point3) : forall texts i p,
  (length X <= length texts)%nat -> X !! i = Some p ->
  exists t, texts !! i = Some t
    /\ drawn self X texts !! (2 * i)%nat = Some (Scatter (coord AX p) (coord AY p) (coord AZ p))
    /\ drawn self X texts !! (2 * i + 1)%nat
         = Some (Text (coord AX p) (coord AY p) (coord AZ p) t (caption_size self) 1 "k").
Proof.
  induction X as [|p0 X IH]; intros texts i p Hlen Hp.
  - rewrite lookup_nil in Hp. discriminate.
  - destruct texts as [|t0 texts]; [simpl in Hlen; lia|].
    destruct i as [|i].
    + inversion Hp; subst. exists t0. repeat split; reflexivity.
    + simpl in Hp, Hlen. destruct (IH texts i p) as (t & Ht & Hs & Hx); [lia | exact Hp |].
      exists t. split; [exact Ht|].
      replace (2 * S i)%nat with (S (S (2 * i))) by lia.
      replace (S (S (2 * i)) + 1)%nat with (S (S (2 * i + 1))) by lia.
      split; assumption.
Qed.

(** ** Rendering and saving *)

Section Rendering.
Context {R : Type} `{L : Libraries R}.

Lemma plot_run self X texts dim (w : world R) :
  _plot_tsne_scatter self X texts dim w =
    match draw_all self X texts with
    | inl e => (inl e, w)
    | inr ax => savefig (scatter_figure self ax) (output_name self) (quality self) w
    end.
Proof.
  unfold _plot_tsne_scatter. rewrite split_columns_spec.
  unfold bind, lift, draw_all, scatter_figure. cbn [artists figsize subplot projection].
  rewrite column_length.
  destruct (for_range _ _ _); reflexivity.
Qed.

Lemma generate_run self (w : world R) :
  generate self w =
    match _generate_tsne self w with
    | (inl e, w1) => (inl e, w1)
    | (inr X, w1) =>
        _plot_tsne_scatter self X (_texts (text_representation self))
          (output_dimension self) w1
    end.
Proof. reflexivity. Qed.

Lemma savefig_calls fig fname q (w : world R) :
  calls (snd (savefig fig fname q w)) = (calls w ++ [CallSavefig fname q fig])%list.
Proof.
  unfold savefig. destruct (render fig fname q); [reflexivity|].
  destruct (os_write (fs w) fname _); reflexivity.
Qed.

(** [savefig] is the rendering followed by the write. *)
Lemma savefig_write fig fname q (w : world R) img r fs1 :
  render fig fname q = inr img -> os_write (fs w) fname img = (r, fs1) ->
  savefig fig fname q w
    = (r, mkWorld fs1 (rng w) (calls w ++ [CallSavefig fname q fig])%list).
Proof. intros Hr Hw. unfold savefig. rewrite Hr, Hw. reflexivity. Qed.

Lemma savefig_inl fig fname q (w w' : world R) e :
  savefig fig fname q w = (inl e, w') ->
  rng w' = rng w /\ calls w' = (calls w ++ [CallSavefig fname q fig])%list
  /\ ((render fig fname q = inl e /\ fs w' = fs w)
      \/ exists img, render fig fname q = inr img
           /\ os_write (fs w) fname img = (inl e, fs w')).
Proof.
  unfold savefig. destruct (render fig fname q) as [e'|img].
  - intros H. inversion H. auto.
  - destruct (os_write (fs w) fname img) as [r fs1] eqn:E. intros H. inversion H; subst.
    split; [reflexivity|]. split; [reflexivity|]. right. exists img. auto.
Qed.

Lemma savefig_inr fig fname q (w w' : world R) u :
  savefig fig fname q w = (inr u, w') ->
  exists img, render fig fname q = inr img
    /\ os_write (fs w) fname img = (inr u, fs w')
    /\ rng w' = rng w
    /\ calls w' = (calls w ++ [CallSavefig fname q fig])%list.
Proof.
  unfold savefig. destruct (render fig fname q) as [e|img]; [discriminate|].
  destruct (os_write (fs w) fname img) as [r fs1] eqn:E. intros H. inversion H; subst.
  exists img. auto.
Qed.

Lemma generate_tsne_world self (w w' : world R) r :
  _generate_tsne self w = (r, w') ->
  fs w' = fs w
  /\ calls w' = (calls w ++ [CallFitTransform (tsne_of self) (plotted_rows self)])%list
  /\ exists g, w' = after_fit_transform self w g
       /\ match r with
          | inl e => tsne_fit_transform (tsne_of self) (plotted_rows self) (rng w) = (inl e, g)
                     \/ exists pts, tsne_fit_transform (tsne_of self) (plotted_rows self) (rng w)
                                      = (inr pts, g) /\ normalise pts = inl e
          | inr X => exists pts, tsne_fit_transform (tsne_of self) (plotted_rows self) (rng w)
                                   = (inr pts, g) /\ normalise pts = inr X
          end.
Proof.
  rewrite generate_tsne_run.
  destruct (tsne_fit_transform _ _ (rng w)) as [[e|pts] g] eqn:E.
  - intros H. inversion H; subst.
    split; [reflexivity|]. split; [reflexivity|].
    exists g. split; [reflexivity|]. left. reflexivity.
  - destruct (normalise pts) as [e|X] eqn:En; intros H; inversion H; subst;
      (split; [reflexivity|]); (split; [reflexivity|]);
      exists g; (split; [reflexivity|]); [right|]; exists pts; auto.
Qed.

(** [generate] on a t-SNE result that normalises to [X], with captions for
    every point and a figure that renders: the outcome is the outcome of the
    write. *)
Lemma generate_write self (w : world R) pts g X img r fs1 :
  tsne_fit_transform (tsne_of self) (plotted_rows self) (rng w) = (inr pts, g) ->
  normalise pts = inr X ->
  (length X <= length (_texts (text_representation self)))%nat ->
  render (saved_figure self X) (output_name self) (quality self) = inr img ->
  os_write (fs w) (output_name self) img = (r, fs1) ->
  generate self w = (r, mkWorld fs1 g (calls w ++ generate_calls self X)%list).
Proof.
  intros Ht Hn Hlen Hr Hw. unfold generate_calls, saved_figure in *.
  rewrite generate_run, generate_tsne_run, Ht, Hn, plot_run.
  destruct (draw_all_spec self X (_texts (text_representation self)))
    as [[_ ->] | [Hlt _]]; [|lia].
  rewrite (savefig_write _ _ _ (after_fit_transform self w g) img r fs1 Hr Hw).
  unfold after_fit_transform. cbn [fs rng calls].
  rewrite <- app_assoc. reflexivity.
Qed.

(** What a call of [generate] that returns has done. *)
Lemma generate_inr self (w w' : world R) u :
  generate self w = (inr u, w') ->
  exists pts g X img,
    tsne_fit_transform (tsne_of self) (plotted_rows self) (rng w) = (inr pts, g)
    /\ normalise pts = inr X
    /\ (length X <= length (_texts (text_representation self)))%nat
    /\ render (saved_figure self X) (output_name self) (quality self) = inr img
    /\ os_write (fs w) (output_name self) img = (inr u, fs w')
    /\ w' = mkWorld (fs w') g (calls w ++ generate_calls self X)%list.
Proof.
  rewrite generate_run, generate_tsne_run.
  destruct (tsne_fit_transform _ _ (rng w)) as [[e|pts] g] eqn:E; [discriminate|].
  destruct (normalise pts) as [e|X] eqn:En; [discriminate|].
  rewrite plot_run.
  destruct (draw_all_spec self X (_texts (text_representation self)))
    as [[Hlen ->] | [_ ->]]; [|discriminate].
  intros H. apply savefig_inr in H as (img & Hr & Hw & Hg & Hc).
  exists pts, g, X, img. split; [first [exact E | reflexivity]|]. split; [exact En|].
  split; [exact Hlen|]. split; [exact Hr|]. split; [exact Hw|].
  destruct w' as [fs' g' c']. cbn [fs rng calls after_fit_transform] in *. subst g' c'.
  unfold generate_calls, saved_figure. rewrite <- app_assoc. reflexivity.
Qed.

End Rendering.

Section Generate.
Context {R : Type} `{L : Libraries R}.

(** C5: when the caption list covers the points, the figure handed to
    [savefig] holds, for every point i, a marker at the point's coordinates
    followed by a text at the same coordinates whose string is the caption
    at index i; when the captions run out, an [IndexError] is raised and no
    figure is saved. *)
Theorem plot_caption_alignment self (X : list point3) (texts : list string) dim (w : world R) :
  ((length X <= length texts)%nat /\
   exists fig,
     calls (snd (_plot_tsne_scatter self X texts dim w))
       = (calls w ++ [CallSavefig (output_name self) (quality self) fig])%list
     /\ length (artists fig) = (2 * length X)%nat
     /\ forall i p, X !! i = Some p ->
          exists t, texts !! i = Some t
            /\ artists fig !! (2 * i)%nat
                 = Some (Scatter (coord AX p) (coord AY p) (coord AZ p))
            /\ artists fig !! (2 * i + 1)%nat
                 = Some (Text (coord AX p) (coord AY p) (coord AZ p) t
                           (caption_size self) 1 "k"))
  \/ ((length texts < length X)%nat /\
      _plot_tsne_scatter self X texts dim w
        = (inl (IndexError "list index out of range"), w)).
Proof.
  rewrite plot_run.
  destruct (draw_all_spec self X texts) as [[Hlen ->] | [Hlen ->]].
  - left. split; [exact Hlen|].
    exists (scatter_figure self (drawn self X texts)).
    split; [apply savefig_calls|]. split.
    + apply drawn_length. exact Hlen.
    + intros i p Hp. apply drawn_lookup; assumption.
  - right. split; [exact Hlen | reflexivity].
Qed.

(** C7: an exception raised by the embedding step or by the file save is
    the exception [generate] raises, in the world the failing step left:
    the file system is as before the call, or as the write that raised left
    it; [fit_transform] was called once and [savefig] at most once. *)
Theorem generate_no_recovery self (w : world R) e w' :
  embedding_fails self w e w' \/ save_fails self w e w' ->
  generate self w = (inl e, w')
  /\ (fs w' = fs w
      \/ exists fig img,
           render fig (output_name self) (quality self) = inr img
           /\ os_write (fs w) (output_name self) img = (inl e, fs w'))
  /\ (calls w' = (calls w ++ [CallFitTransform (tsne_of self) (plotted_rows self)])%list
      \/ exists fig,
           calls w' = (calls w ++ [CallFitTransform (tsne_of self) (plotted_rows self);
                                   CallSavefig (output_name self) (quality self) fig])%list).
Proof.
  intros [Hemb | (X & w1 & ax & Hemb & Hdraw & Hsave)].
  - unfold embedding_fails in Hemb. rewrite generate_run, Hemb.
    apply generate_tsne_world in Hemb as (Hfs & Hc & _). auto.
  - rewrite generate_run, Hemb, plot_run, Hdraw, Hsave.
    apply generate_tsne_world in Hemb as (Hfs & Hc & _).
    apply savefig_inl in Hsave as (_ & Hc' & Hout).
    split; [reflexivity|]. split.
    + destruct Hout as [[_ Hfs'] | (img & Hr & Hw)].
      * left. congruence.
      * right. exists (scatter_figure self ax), img. rewrite <- Hfs. auto.
    + right. exists (scatter_figure self ax).
      rewrite Hc', Hc, <- app_assoc. reflexivity.
Qed.

(** C8: after a call of [generate] that returned, a second call on the same
    object returns as well, provided sklearn and matplotlib do not raise and
    the operating system lets the process write over the file it wrote: the
    file left by the first call is no obstacle in the code.  The second call
    hands the rendering of its own figure to the operating system for the
    same path, where a regular file is, and afterwards the path holds that
    rendering. *)
Theorem generate_twice self (w0 w1 : world R) pts g :
  one_point_per_row -> write_leaves_file -> overwrite_accepted (output_name self) ->
  (forall fig, exists img, render fig (output_name self) (quality self) = inr img) ->
  generate self w0 = (inr tt, w1) ->
  tsne_fit_transform (tsne_of self) (plotted_rows self) (rng w1) = (inr pts, g) ->
  exists X img fs2,
    normalise pts = inr X
    /\ render (saved_figure self X) (output_name self) (quality self) = inr img
    /\ is_file (fs w1 !! output_name self)
    /\ os_write (fs w1) (output_name self) img = (inr tt, fs2)
    /\ generate self w1 = (inr tt, mkWorld fs2 g (calls w1 ++ generate_calls self X)%list)
    /\ fs2 !! output_name self = Some (File img).
Proof.
  intros Hshape Hwrite Hover Hrender Hfirst Hsecond.
  apply generate_inr in Hfirst as (pts1 & g1 & X1 & img1 & Ht1 & Hn1 & Hlen1 & _ & Hw1 & _).
  pose proof (Hshape _ _ _ _ _ Ht1) as Hrows1.
  pose proof (Hshape _ _ _ _ _ Hsecond) as Hrows2.
  pose proof (normalise_length _ _ Hn1) as HlenX1.
  assert (Hne : pts <> []).
  { intros ->. simpl in Hrows2. rewrite <- Hrows2 in Hrows1.
    destruct pts1; [|discriminate].
    destruct normalise_empty as [msg Hmsg]. congruence. }
  destruct (normalise_columns pts Hne) as (lo & hi & Hn2 & _).
  set (X2 := map (broadcast np_div hi) (map (broadcast np_sub lo) pts)) in *.
  assert (Hlen2 : (length X2 <= length (_texts (text_representation self)))%nat).
  { subst X2. rewrite !length_map. lia. }
  destruct (Hrender (saved_figure self X2)) as [img2 Himg2].
  assert (Hfile : is_file (fs w1 !! output_name self)).
  { rewrite (Hwrite _ _ _ _ Hw1). exact I. }
  destruct (Hover (fs w1) img2 Hfile) as [fs2 Hw2].
  exists X2, img2, fs2.
  split; [exact Hn2|]. split; [exact Himg2|]. split; [exact Hfile|].
  split; [exact Hw2|]. split.
  - apply (generate_write self w1 pts g X2 img2 (inr tt) fs2); assumption.
  - exact (Hwrite _ _ _ _ Hw2).
Qed.

End Generate.

(** ** The class on concrete inputs *)

Lemma sample_self_init (acts : list (list npfloat)) :
  __init__ sample_fs acts sample_texts 2 "scatter.jpg" "out"
    default_perplexity default_iterations default_caption_size
    default_output_size default_quality
  = inr (sample_self acts).
Proof. reflexivity. Qed.

Lemma stub_one_point_per_row : one_point_per_row (L := stub_libraries).
Proof.
  intros tsne data g pts g' H. simpl in H. inversion H. apply length_map.
Qed.

Lemma stub_write_leaves_file : write_leaves_file (L := stub_libraries).
Proof.
  intros fs0 path img fs1. cbn [os_write stub_libraries]. unfold stub_write.
  destruct (fs0 !! path) as [[|c]|]; intros H; inversion H; apply lookup_insert_eq.
Qed.

Lemma stub_overwrite_accepted (path : string) : overwrite_accepted (L := stub_libraries) path.
Proof.
  intros fs0 img. cbn [os_write stub_libraries]. unfold stub_write.
  destruct (fs0 !! path) as [[|c]|]; simpl; intros H; try contradiction.
  eexists. reflexivity.
Qed.

(** Witness of C4: no path [missing] in the sample file system, a directory
    at [out]. *)
Lemma init_directory_check_witness :
  (exists e, __init__ sample_fs sample_activations sample_texts 2 "scatter.jpg" "missing"
               50 5000 10 (50, 50) 100 = inl e /\ is_ValueError e = true)
  /\ (exists self, __init__ sample_fs sample_activations sample_texts 2 "scatter.jpg" "out"
               50 5000 10 (50, 50) 100 = inr self /\ output_directory self = "out").
Proof.
  split.
  - apply (init_directory_check sample_fs sample_activations sample_texts 2
             "scatter.jpg" "missing" 50 5000 10 (50, 50) 100).
    vm_compute. reflexivity.
  - apply (init_directory_check sample_fs sample_activations sample_texts 2
             "scatter.jpg" "out" 50 5000 10 (50, 50) 100).
    + vm_compute. reflexivity.
    + lia.
Defined.

(** Counterexample to C10 as stated: the grid dimension -4294967296 passes
    the constructor and the total point count is 0, not its square. *)
Lemma init_negative_square_counterexample :
  ~ (exists self,
       __init__ sample_fs sample_activations sample_texts (-4294967296) "scatter.jpg" "out"
         50 5000 10 (50, 50) 100 = inr self
       /\ to_plot self = (-4294967296) * (-4294967296)).
Proof.
  intros (self & Hinit & Hplot).
  apply init_inr in Hinit as (-> & _ & _).
  vm_compute in Hplot. discriminate.
Qed.

(** Witness of C10 as amended, at the grid dimension -3. *)
Lemma init_accepts_nonpositive_witness :
  exists self,
    __init__ sample_fs sample_activations sample_texts (-3) "scatter.jpg" "out"
      50 5000 10 (50, 50) 100 = inr self
    /\ output_dimension self = -3
    /\ to_plot self = np_square (-3)
    /\ (- 3037000499 <= -3 -> to_plot self = (-3) * (-3)).
Proof.
  apply (init_accepts_nonpositive sample_fs sample_activations sample_texts (-3)
           "scatter.jpg" "out" 50 5000 10 (50, 50) 100).
  - lia.
  - vm_compute. eexists. reflexivity.
Defined.

(** Witness of C6: the four sample rows at grid dimension 2. *)
Lemma generate_tsne_input_witness :
  Z.of_nat (length (firstn (Z.to_nat (2 * 2)) sample_activations)) = 2 * 2
  /\ _generate_tsne (L := stub_libraries) (sample_self sample_activations) sample_world =
       match tsne_fit_transform (Libraries := stub_libraries) (mkTSNE 50 3 "pca" 5000)
               (firstn (Z.to_nat (2 * 2)) sample_activations) (rng sample_world) with
       | (inl e, g) =>
           (inl e,
            mkWorld (fs sample_world) g
              (calls sample_world
                 ++ [CallFitTransform (mkTSNE 50 3 "pca" 5000)
                       (firstn (Z.to_nat (2 * 2)) sample_activations)])%list)
       | (inr pts, g) =>
           (normalise pts,
            mkWorld (fs sample_world) g
              (calls sample_world
                 ++ [CallFitTransform (mkTSNE 50 3 "pca" 5000)
                       (firstn (Z.to_nat (2 * 2)) sample_activations)])%list)
       end.
Proof.
  apply (generate_tsne_input (L := stub_libraries) sample_fs sample_activations
           sample_texts 2 "scatter.jpg" "out" 50 5000 10 (50, 50) 100
           (sample_self sample_activations) sample_world).
  - reflexivity.
  - vm_compute. discriminate.
  - unfold ndarray_rows. vm_compute. reflexivity.
Defined.

Lemma sample_spread (a : axis) :
  spread (column a (map first_three sample_activations)).
Proof.
  split.
  - destruct a; vm_compute; repeat constructor.
  - destruct a; eexists;
      (split; [vm_compute; reflexivity | split; [exact I | intros []]]).
Qed.

(** Witness of C1 as amended: four rows spread on every axis, grid
    dimension 2. *)
Lemma generate_tsne_normalised_witness :
  exists X w',
    _generate_tsne (L := stub_libraries) (sample_self sample_activations) sample_world
      = (inr X, w')
    /\ embedding_normalised 2 X.
Proof.
  apply (generate_tsne_normalised (L := stub_libraries) sample_fs sample_activations
           sample_texts 2 "scatter.jpg" "out" 50 5000 10 (50, 50) 100
           (sample_self sample_activations) sample_world
           (map first_three sample_activations) 1%nat).
  - reflexivity.
  - vm_compute. discriminate.
  - unfold ndarray_rows. vm_compute. reflexivity.
  - reflexivity.
  - reflexivity.
  - exact sample_spread.
Defined.

(** Counterexample to C1 as stated: the configuration passes construction,
    the matrix has grid_dimension² = 4 rows, the reduction returns points
    whose third coordinate is 7 throughout, and the third coordinate of
    every returned point is nan. *)
Lemma generate_tsne_flat_axis_counterexample :
  exists self X w',
    __init__ sample_fs flat_activations sample_texts 2 "scatter.jpg" "out"
      50 5000 10 (50, 50) 100 = inr self
    /\ 2 * 2 <= Z.of_nat (length flat_activations)
    /\ _generate_tsne (L := stub_libraries) self sample_world = (inr X, w')
    /\ ~ embedding_normalised 2 X.
Proof.
  eexists. eexists. eexists.
  split; [reflexivity|]. split; [vm_compute; discriminate|].
  split; [vm_compute; reflexivity|].
  intros (_ & Hunit & _). specialize (Hunit AZ).
  apply Forall_inv in Hunit. destruct Hunit as [Hfin _]. exact Hfin.
Qed.

(** Witness of C9: the third axis of the flat sample. *)
Lemma generate_tsne_constant_axis_nan_witness :
  exists lo hi X w',
    np_min_axis0 (map first_three flat_activations) = inr lo /\
    np_max_axis0 (map (broadcast np_sub lo) (map first_three flat_activations)) = inr hi /\
    is_num 0 (coord AZ hi) /\
    _generate_tsne (L := stub_libraries) (sample_self flat_activations) sample_world
      = (inr X, w') /\
    X = map (broadcast np_div hi) (map (broadcast np_sub lo) (map first_three flat_activations)) /\
    length X = length (map first_three flat_activations) /\
    Forall (fun p => coord AZ p = NaN /\ ~ in_unit (coord AZ p)) X.
Proof.
  apply (generate_tsne_constant_axis_nan (L := stub_libraries)
           (sample_self flat_activations) sample_world
           (map first_three flat_activations) 1%nat AZ 7%Q).
  - reflexivity.
  - split; [discriminate|].
    repeat (constructor; [split; [exact I | vm_compute; reflexivity]|]). constructor.
Defined.

(** C2, at a failing input: the object is built with the output directory
    [out] and the output name [scatter.jpg]; [generate] returns, the image is
    at [scatter.jpg] and nothing is at [out/scatter.jpg]. *)
Theorem generate_ignores_output_directory :
  exists self w',
    __init__ sample_fs sample_activations sample_texts 2 "scatter.jpg" "out"
      50 5000 10 (50, 50) 100 = inr self
    /\ generate (L := stub_libraries) self sample_world = (inr tt, w')
    /\ os_path_join (output_directory self) (output_name self) = "out/scatter.jpg"
    /\ fs w' !! "out/scatter.jpg" = None
    /\ is_file (fs w' !! "scatter.jpg")
    /\ fs w' = <["scatter.jpg" := File [Byte.xff; Byte.xd8]]> sample_fs.
Proof.
  eexists. eexists.
  split; [reflexivity|]. split; [vm_compute; reflexivity|].
  split; [reflexivity|]. split; [vm_compute; reflexivity|].
  split; [vm_compute; exact I|]. vm_compute. reflexivity.
Qed.

(** Witness of C7: sklearn raising, and the operating system raising while
    the image is written, after it created the file. *)
Lemma generate_no_recovery_witness :
  generate (L := stub_tsne_raises (LibraryError "sklearn" "perplexity"))
    (sample_self sample_activations) sample_world
  = (inl (LibraryError "sklearn" "perplexity"),
     mkWorld sample_fs 1%nat
       [CallFitTransform (mkTSNE 50 3 "pca" 5000) sample_activations])
  /\ exists w',
       generate (L := stub_disk_full) (sample_self sample_activations) sample_world
       = (inl (OSError "No space left on device" "scatter.jpg"), w')
       /\ fs w' = <["scatter.jpg" := File []]> sample_fs.
Proof.
  split.
  - apply (generate_no_recovery (L := stub_tsne_raises (LibraryError "sklearn" "perplexity"))).
    left. vm_compute. reflexivity.
  - eexists.
    pose proof (generate_no_recovery (L := stub_disk_full)
                  (sample_self sample_activations) sample_world
                  (OSError "No space left on device" "scatter.jpg")) as H.
    edestruct H as (Hgen & _ & _).
    + right. eexists. eexists. eexists.
      split; [vm_compute; reflexivity|]. split; [vm_compute; reflexivity|].
      vm_compute. reflexivity.
    + split; [exact Hgen | vm_compute; reflexivity].
Defined.

(** Witness of C8: two calls in a row on the sample object. *)
Lemma generate_twice_witness :
  exists X img fs2,
    normalise (map first_three sample_activations) = inr X
    /\ render (Libraries := stub_libraries) (saved_figure (sample_self sample_activations) X)
         "scatter.jpg" 100 = inr img
    /\ is_file (fs (snd (generate (L := stub_libraries) (sample_self sample_activations)
                           sample_world)) !! "scatter.jpg")
    /\ os_write (Libraries := stub_libraries)
         (fs (snd (generate (L := stub_libraries) (sample_self sample_activations)
                     sample_world))) "scatter.jpg" img = (inr tt, fs2)
    /\ generate (L := stub_libraries) (sample_self sample_activations)
         (snd (generate (L := stub_libraries) (sample_self sample_activations) sample_world))
       = (inr tt,
          mkWorld fs2 2%nat
            (calls (snd (generate (L := stub_libraries) (sample_self sample_activations)
                           sample_world))
               ++ generate_calls (sample_self sample_activations) X)%list)
    /\ fs2 !! "scatter.jpg" = Some (File img).
Proof.
  apply (generate_twice (L := stub_libraries) (sample_self sample_activations)
           sample_world _ (map first_three sample_activations) 2%nat).
  - exact stub_one_point_per_row.
  - exact stub_write_leaves_file.
  - exact (stub_overwrite_accepted "scatter.jpg").
  - intros fig. eexists. reflexivity.
  - vm_compute. reflexivity.
  - vm_compute. reflexivity.
Defined.

(** * Further properties of the class *)

(** ** nan and single points in the result of the t-SNE step *)

Lemma fold_minimum_nan (l : list npfloat) : fold_left np_minimum l NaN = NaN.
Proof. induction l as [|v l IH]; simpl; auto. Qed.

Lemma fold_minimum_poison (l : list npfloat) :
  NaN ∈ l -> forall v, fold_left np_minimum l v = NaN.
Proof.
  induction l as [|x l IH]; intros Hin v.
  - inversion Hin.
  - simpl. apply elem_of_cons in Hin as [<- | Hin].
    + rewrite np_minimum_nan_r. apply fold_minimum_nan.
    + apply IH. exact Hin.
Qed.

Lemma reduce_minimum_poison (l : list npfloat) :
  NaN ∈ l -> reduce_axis "minimum" np_minimum l = inr NaN.
Proof.
  destruct l as [|v l]; intros Hin; [inversion Hin|].
  simpl. f_equal. apply elem_of_cons in Hin as [<- | Hin].
  - apply fold_minimum_nan.
  - apply fold_minimum_poison. exact Hin.
Qed.

Lemma normalise_nan (a : axis) (pts : list point3) :
  NaN ∈ column a pts ->
  exists X, normalise pts = inr X /\ length X = length pts
    /\ Forall (fun p => coord a p = NaN) X.
Proof.
  intros Hin.
  assert (Hne : pts <> []) by (intros ->; inversion Hin).
  destruct (normalise_columns pts Hne) as (lo & hi & Hnorm & Hcols).
  destruct (Hcols a) as (Hlo & _ & _).
  rewrite (reduce_minimum_poison _ Hin) in Hlo. injection Hlo as Elo.
  eexists. split; [exact Hnorm|]. split; [rewrite !length_map; reflexivity|].
  apply Forall_forall. intros p' Hp'.
  apply elem_of_map_iff in Hp' as (p1 & <- & Hp1).
  apply elem_of_map_iff in Hp1 as (p0 & <- & _).
  rewrite !coord_broadcast, <- Elo, np_sub_nan_r. reflexivity.
Qed.

Lemma np_div_sub_self (x : npfloat) :
  is_finite x -> np_div (np_sub x x) (np_sub x x) = NaN.
Proof.
  intros Hx. apply np_div_zero_zero; apply np_sub_equal; auto; reflexivity.
Qed.

Lemma normalise_single (pt : point3) :
  (forall a, is_finite (coord a pt)) ->
  normalise [pt] = inr [P3 NaN NaN NaN].
Proof.
  intros Hfin.
  pose proof (Hfin AX) as Hx. pose proof (Hfin AY) as Hy. pose proof (Hfin AZ) as Hz.
  destruct pt as [x y z]. cbn [coord px py pz] in Hx, Hy, Hz.
  unfold normalise, np_min_axis0, np_max_axis0, reduce_axis0.
  cbn [column map coord px py pz reduce_axis fold_left broadcast].
  cbv zeta. unfold broadcast.
  cbn [column map coord px py pz reduce_axis fold_left].
  rewrite !np_div_sub_self by assumption. reflexivity.
Qed.

(** ** The embedding step, further *)

Section EmbeddingFurther.
Context {R : Type} `{L : Libraries R}.

(** X8: one nan poisons its axis: when a coordinate of the t-SNE result is nan,
    the minimum of that axis is nan and every point returned by
    [_generate_tsne] has nan on that axis. *)
Theorem generate_tsne_nan_axis (self : TSNECaption3DScatter) (w : world R)
    pts g (a : axis) :
  tsne_fit_transform (tsne_of self) (plotted_rows self) (rng w) = (inr pts, g) ->
  NaN ∈ column a pts ->
  exists X w',
    _generate_tsne self w = (inr X, w') /\
    length X = length pts /\
    Forall (fun p => coord a p = NaN) X.
Proof.
  intros Htsne Hin.
  destruct (normalise_nan a pts Hin) as (X & HX & Hlen & Hnan).
  exists X, (after_fit_transform self w g).
  split; [rewrite generate_tsne_run, Htsne, HX; reflexivity|]. auto.
Qed.

(** X9: a grid dimension of -1 passes the constructor and plots one point;
    whatever numbers the t-SNE step returns for it, [_generate_tsne] returns
    the point (nan, nan, nan). *)
Theorem generate_tsne_single_point fs acts texts name dir p it cs os q self
    (w : world R) pt g :
  __init__ fs acts texts (-1) name dir p it cs os q = inr self ->
  tsne_fit_transform (mkTSNE p 3 "pca" it) (firstn 1 acts) (rng w) = (inr [pt], g) ->
  (forall a, is_finite (coord a pt)) ->
  exists w', _generate_tsne self w = (inr [P3 NaN NaN NaN], w').
Proof.
  intros Hinit Htsne Hfin. apply init_inr in Hinit as (-> & _ & _).
  eexists.
  rewrite generate_tsne_run. unfold tsne_of, plotted_rows.
  cbn [perplexity iterations to_plot activations].
  change (slice_to (np_square (-1)) acts) with (firstn 1 acts).
  rewrite Htsne, (normalise_single pt Hfin). reflexivity.
Qed.

(** X10: a matrix with fewer rows than grid_dimension² is not rejected: the slice
    is the whole matrix, and [_generate_tsne] is the t-SNE reduction of all of
    its rows followed by the normalisation. *)
Theorem generate_tsne_short_matrix fs0 acts texts d name dir p it cs os q self
    (w : world R) :
  __init__ fs0 acts texts d name dir p it cs os q = inr self ->
  Z.of_nat (length acts) <= d * d -> d * d < 2 ^ 63 ->
  _generate_tsne self w =
    match tsne_fit_transform (mkTSNE p 3 "pca" it) acts (rng w) with
    | (inl e, g) =>
        (inl e,
         mkWorld (fs w) g (calls w ++ [CallFitTransform (mkTSNE p 3 "pca" it) acts])%list)
    | (inr pts, g) =>
        (normalise pts,
         mkWorld (fs w) g (calls w ++ [CallFitTransform (mkTSNE p 3 "pca" it) acts])%list)
    end.
Proof.
  intros Hinit Hrows Hfit. apply init_inr in Hinit as (-> & _ & _).
  rewrite generate_tsne_run. unfold after_fit_transform, tsne_of, plotted_rows.
  cbn [perplexity iterations to_plot activations].
  rewrite np_square_exact by exact Hfit.
  rewrite slice_to_firstn by nia.
  rewrite firstn_all2 by lia.
  reflexivity.
Qed.

End EmbeddingFurther.

(** ** [generate] as a whole *)

Lemma drawn_app self (X : list point3) : forall texts more,
  (length X <= length texts)%nat -> drawn self X (texts ++ more)%list = drawn self X texts.
Proof.
  induction X as [|p X IH]; intros texts more Hlen.
  - destruct texts; reflexivity.
  - destruct texts as [|t texts]; [simpl in Hlen; lia|].
    simpl in *. rewrite IH by lia. reflexivity.
Qed.

Lemma np_square_opp (k : Z) : 0 <= k < 2 ^ 63 -> np_square (- k) = np_square k.
Proof.
  intros [H0 Hk]. unfold np_square.
  assert (H1 : (- 2 ^ 63 <=? - k) && (- k <? 2 ^ 63) = true).
  { apply andb_true_intro. split; [apply Z.leb_le | apply Z.ltb_lt]; lia. }
  assert (H2 : (- 2 ^ 63 <=? k) && (k <? 2 ^ 63) = true).
  { apply andb_true_intro. split; [apply Z.leb_le | apply Z.ltb_lt]; lia. }
  rewrite H1, H2, Z.mul_opp_opp. reflexivity.
Qed.

Section GenerateFurther.
Context {R : Type} `{L : Libraries R}.

(** X1: when [generate] returns: exactly when the t-SNE step returns a
    non-empty result, the captions cover the points, matplotlib renders the
    figure and the operating system's write of the image at the output name
    returns.  The world it leaves has the file system the write left, the
    generator state t-SNE left, and the two calls in the trace. *)
Theorem generate_returns_iff (self : TSNECaption3DScatter) (w w' : world R) :
  generate self w = (inr tt, w') <->
  exists pts g X img fs1,
    tsne_fit_transform (tsne_of self) (plotted_rows self) (rng w) = (inr pts, g) /\
    normalise pts = inr X /\
    (length X <= length (_texts (text_representation self)))%nat /\
    render (saved_figure self X) (output_name self) (quality self) = inr img /\
    os_write (fs w) (output_name self) img = (inr tt, fs1) /\
    w' = mkWorld fs1 g (calls w ++ generate_calls self X)%list.
Proof.
  split.
  - intros H. apply generate_inr in H as (pts & g & X & img & Ht & Hn & Hlen & Hr & Hw & Hw').
    exists pts, g, X, img, (fs w'). auto 10.
  - intros (pts & g & X & img & fs1 & Ht & Hn & Hlen & Hr & Hw & ->).
    apply (generate_write self w pts g X img (inr tt) fs1); assumption.
Qed.

(** X3: fewer captions than points: [generate] raises [IndexError] from the
    drawing loop, after t-SNE has run and before anything is saved. *)
Theorem generate_caption_shortage (self : TSNECaption3DScatter) (w w1 : world R)
    (X : list point3) :
  _generate_tsne self w = (inr X, w1) ->
  (length (_texts (text_representation self)) < length X)%nat ->
  generate self w = (inl (IndexError "list index out of range"), w1)
  /\ fs w1 = fs w
  /\ calls w1 = (calls w ++ [CallFitTransform (tsne_of self) (plotted_rows self)])%list.
Proof.
  intros Hemb Hlt. rewrite generate_run, Hemb, plot_run.
  destruct (draw_all_spec self X (_texts (text_representation self)))
    as [[Hle _] | [_ ->]]; [lia|].
  apply generate_tsne_world in Hemb as (Hfs & Hc & _). auto.
Qed.

(** X4: a grid dimension of 0 passes the constructor, but [generate] then always
    raises and writes nothing: [fit_transform] is called on zero rows, and
    if it returns at all (one point per row, hence none) the minimum of the
    empty array raises [ValueError]. *)
Theorem generate_dimension_zero fs0 acts texts name dir p it cs os q self (w : world R) :
  __init__ fs0 acts texts 0 name dir p it cs os q = inr self ->
  one_point_per_row ->
  exists e w',
    generate self w = (inl e, w')
    /\ fs w' = fs w
    /\ calls w' = (calls w ++ [CallFitTransform (mkTSNE p 3 "pca" it) []])%list
    /\ (forall pts g,
          tsne_fit_transform (mkTSNE p 3 "pca" it) [] (rng w) = (inr pts, g) ->
          e = ValueError "zero-size array to reduction operation minimum which has no identity").
Proof.
  intros Hinit Hshape. apply init_inr in Hinit as (-> & _ & _).
  rewrite generate_run, generate_tsne_run.
  unfold after_fit_transform, tsne_of, plotted_rows.
  cbn [perplexity iterations to_plot activations].
  change (slice_to (np_square 0) acts) with (@nil (list npfloat)).
  destruct (tsne_fit_transform _ _ (rng w)) as [[e|pts] g] eqn:E.
  - exists e. eexists. split; [reflexivity|]. repeat split. intros pts g' H. discriminate.
  - pose proof (Hshape _ _ _ _ _ E) as Hlen. destruct pts; [|discriminate].
    eexists. eexists. split; [reflexivity|]. repeat split.
Qed.

(** X11: captions beyond the number of points are ignored, and so is the grid
    dimension passed to [_plot_tsne_scatter]. *)
Theorem plot_ignores_extra_captions (self : TSNECaption3DScatter) (X : list point3)
    (texts more : list string) (dim dim' : Z) (w : world R) :
  (length X <= length texts)%nat ->
  _plot_tsne_scatter self X (texts ++ more)%list dim' w
    = _plot_tsne_scatter self X texts dim w.
Proof.
  intros Hlen. rewrite !plot_run.
  destruct (draw_all_spec self X texts) as [[_ ->] | [Hlt _]]; [|lia].
  destruct (draw_all_spec self X (texts ++ more)%list) as [[_ ->] | [Hlt _]].
  - rewrite drawn_app by exact Hlen. reflexivity.
  - rewrite length_app in Hlt. lia.
Qed.

(** X12: the sign of the grid dimension does not matter after construction: the
    objects built from k and from -k (both accepted) make [generate] do the
    same thing. *)
Theorem generate_sign_irrelevant fs0 acts texts k name dir p it cs os q s1 s2
    (w : world R) :
  0 <= k < 2 ^ 63 ->
  __init__ fs0 acts texts k name dir p it cs os q = inr s1 ->
  __init__ fs0 acts texts (- k) name dir p it cs os q = inr s2 ->
  generate s2 w = generate s1 w.
Proof.
  intros Hk H1 H2.
  apply init_inr in H1 as (-> & _ & _). apply init_inr in H2 as (-> & _ & _).
  rewrite (np_square_opp k Hk). reflexivity.
Qed.

End GenerateFurther.

(** ** The further properties on concrete inputs *)

Lemma sample_object_init (acts : list (list npfloat)) (texts : TextRepresentation) (d : Z) :
  d <> 1 ->
  __init__ sample_fs acts texts d "scatter.jpg" "out"
    default_perplexity default_iterations default_caption_size
    default_output_size default_quality
  = inr (sample_object acts texts d).
Proof.
  intros Hd. unfold sample_object. apply init_accepts; [exact Hd|].
  vm_compute. eexists. reflexivity.
Qed.

(** [out] is a regular file and the construction goes through. *)
Lemma init_accepts_regular_file_witness :
  exists self,
    __init__ file_fs sample_activations sample_texts 2 "scatter.jpg" "out"
      50 5000 10 (50, 50) 100 = inr self.
Proof.
  apply (init_accepts_regular_file file_fs sample_activations sample_texts 2
           "scatter.jpg" "out" 50 5000 10 (50, 50) 100 [Byte.x00]).
  - lia.
  - vm_compute. reflexivity.
Defined.

(** A nan in the first feature of the second row. *)
Lemma generate_tsne_nan_axis_witness :
  exists X w',
    _generate_tsne (L := stub_libraries) (sample_self nan_activations) sample_world
      = (inr X, w') /\
    length X = length (map first_three nan_activations) /\
    Forall (fun p => coord AX p = NaN) X.
Proof.
  apply (generate_tsne_nan_axis (L := stub_libraries) (sample_self nan_activations)
           sample_world (map first_three nan_activations) 1%nat AX).
  - reflexivity.
  - simpl. apply list_elem_of_further, list_elem_of_here.
Defined.

(** Grid dimension -1 on the sample rows. *)
Lemma generate_tsne_single_point_witness :
  exists w',
    _generate_tsne (L := stub_libraries) (sample_object sample_activations sample_texts (-1))
      sample_world
    = (inr [P3 NaN NaN NaN], w').
Proof.
  apply (generate_tsne_single_point (L := stub_libraries) sample_fs sample_activations
           sample_texts "scatter.jpg" "out" 50 5000 10 (50, 50) 100
           (sample_object sample_activations sample_texts (-1)) sample_world
           (first_three (row3 0 4 1)) 1%nat).
  - reflexivity.
  - reflexivity.
  - intros []; exact I.
Defined.

(** X14: numbers that differ on an axis are not enough for the normalisation:
    when the first coordinates span the range of float32, the shift by the
    minimum overflows to infinity, the divisor is infinite, and the first
    coordinates of the result are nan and zeros, without a 1 among them. *)
Theorem generate_tsne_overflow :
  Forall is_finite (column AX (map first_three wide_activations))
  /\ divisor (column AX (map first_three wide_activations)) = inr (S754_infinity false)
  /\ exists X w',
       _generate_tsne (L := stub_libraries) (sample_self wide_activations) sample_world
         = (inr X, w')
       /\ column AX X = [NaN; S754_zero false; S754_zero false; S754_zero false]
       /\ ~ embedding_normalised 2 X.
Proof.
  split; [vm_compute; repeat constructor|]. split; [vm_compute; reflexivity|].
  eexists. eexists. split; [vm_compute; reflexivity|]. split; [reflexivity|].
  intros (_ & Hunit & _). specialize (Hunit AX).
  apply Forall_inv in Hunit. destruct Hunit as [Hfin _]. exact Hfin.
Qed.

(** Grid dimension 3 on the four sample rows: nine rows asked, four there. *)
Lemma generate_tsne_short_matrix_witness :
  _generate_tsne (L := stub_libraries)
    (sample_object sample_activations sample_texts 3) sample_world
  = match tsne_fit_transform (Libraries := stub_libraries) (mkTSNE 50 3 "pca" 5000)
            sample_activations (rng sample_world) with
    | (inl e, g) =>
        (inl e,
         mkWorld (fs sample_world) g
           (calls sample_world
              ++ [CallFitTransform (mkTSNE 50 3 "pca" 5000) sample_activations])%list)
    | (inr pts, g) =>
        (normalise pts,
         mkWorld (fs sample_world) g
           (calls sample_world
              ++ [CallFitTransform (mkTSNE 50 3 "pca" 5000) sample_activations])%list)
    end.
Proof.
  apply (generate_tsne_short_matrix (L := stub_libraries) sample_fs sample_activations
           sample_texts 3 "scatter.jpg" "out" 50 5000 10 (50, 50) 100
           (sample_object sample_activations sample_texts 3) sample_world).
  - reflexivity.
  - vm_compute. discriminate.
  - reflexivity.
Defined.

(** Four points and two captions. *)
Lemma generate_caption_shortage_witness :
  exists w1,
    generate (L := stub_libraries) (sample_object sample_activations few_texts 2) sample_world
      = (inl (IndexError "list index out of range"), w1)
    /\ fs w1 = sample_fs
    /\ calls w1 = [CallFitTransform (mkTSNE 50 3 "pca" 5000) sample_activations].
Proof.
  eexists.
  eapply (generate_caption_shortage (L := stub_libraries)
            (sample_object sample_activations few_texts 2) sample_world).
  - vm_compute. reflexivity.
  - vm_compute. lia.
Defined.

(** Grid dimension 0 on the sample rows. *)
Lemma generate_dimension_zero_witness :
  exists e w',
    generate (L := stub_libraries) (sample_object sample_activations sample_texts 0)
      sample_world = (inl e, w')
    /\ fs w' = sample_fs
    /\ calls w' = [CallFitTransform (mkTSNE 50 3 "pca" 5000) []]
    /\ (forall pts g,
          tsne_fit_transform (Libraries := stub_libraries) (mkTSNE 50 3 "pca" 5000) [] 0%nat
            = (inr pts, g) ->
          e = ValueError "zero-size array to reduction operation minimum which has no identity").
Proof.
  apply (generate_dimension_zero (L := stub_libraries) sample_fs sample_activations
           sample_texts "scatter.jpg" "out" 50 5000 10 (50, 50) 100
           (sample_object sample_activations sample_texts 0) sample_world).
  - reflexivity.
  - exact stub_one_point_per_row.
Defined.

(** Five captions for four points, against the first four of them. *)
Lemma plot_ignores_extra_captions_witness :
  _plot_tsne_scatter (L := stub_libraries) (sample_self sample_activations)
    (map first_three sample_activations)
    (["a cat"; "a dog"; "a bird"; "a fish"] ++ ["a horse"])%list 7 sample_world
  = _plot_tsne_scatter (L := stub_libraries) (sample_self sample_activations)
      (map first_three sample_activations)
      ["a cat"; "a dog"; "a bird"; "a fish"] 2 sample_world.
Proof.
  apply (plot_ignores_extra_captions (L := stub_libraries)).
  simpl. lia.
Defined.

(** Grid dimensions 2 and -2. *)
Lemma generate_sign_irrelevant_witness :
  generate (L := stub_libraries) (sample_object sample_activations sample_texts (-2))
    sample_world
  = generate (L := stub_libraries) (sample_object sample_activations sample_texts 2)
      sample_world.
Proof.
  apply (generate_sign_irrelevant (L := stub_libraries) sample_fs sample_activations
           sample_texts 2 "scatter.jpg" "out" 50 5000 10 (50, 50) 100).
  - lia.
  - reflexivity.
  - reflexivity.
Defined.
